(** * @alg/enum: eager functions over iterables (src/main.js)

    A shallow embedding of the functions of [src/main.js] that the
    specification makes claims about, followed by the theorems that settle
    those claims.

    Conventions of the embedding:
    - JavaScript values are the inductive [value]; numbers are the integers
      of [Z] (no floating point), [undefined] and [null] are distinct
      constructors.
    - A function that can throw returns [res A]: [Ok a] or [Throw e].
    - An iterator is a [cursor]: the elements it still has to yield, ending
      either normally or by throwing (the test suite's [temperamentalIter]).
    - [while (true)] loops take a [fuel] and return [None] when it runs
      out, so that a loop that never exits is visible as such. *)

From Stdlib Require Import ZArith String Ascii Lia.
From stdpp Require Import base list.

Local Open Scope string_scope.
Local Open Scope list_scope.

(** ** Values, errors, results *)

#[local] Unset Elimination Schemes.
Inductive value : Type :=
| VUndefined
| VNull
| VBool (b : bool)
| VNum (n : Z)
| VStr (s : string)
| VArr (elems : list value)
| VObj (props : list (string * value)).
#[local] Set Elimination Schemes.

Inductive error : Type :=
| Error (msg : string)
| TypeError (msg : string)
| RangeError (msg : string).

Inductive res (A : Type) : Type :=
| Ok (a : A)
| Throw (e : error).
Arguments Ok {A} a.
Arguments Throw {A} e.

Definition bind {A B : Type} (m : res A) (k : A -> res B) : res B :=
  match m with
  | Ok a => k a
  | Throw e => Throw e
  end.

Notation "'let*' x ':=' m 'in' k" := (bind m (fun x => k))
  (at level 10, x pattern, m at level 100, k at level 200).

Definition raises {A : Type} (r : res A) : Prop := exists e, r = Throw e.

(** A plain data object: its own properties, in insertion order. *)
Definition obj : Type := list (string * value).

(** [key in o] *)
Fixpoint has (o : obj) (key : string) : bool :=
  match o with
  | [] => false
  | (k, _) :: o' => if String.eqb k key then true else has o' key
  end.

(** [o[key]]: a missing property reads as [undefined]. *)
Fixpoint get (o : obj) (key : string) : value :=
  match o with
  | [] => VUndefined
  | (k, v) :: o' => if String.eqb k key then v else get o' key
  end.

(** A destructuring default [{key = d}] applies when the property reads as
    [undefined]. *)
Definition get_default (o : obj) (key : string) (d : value) : value :=
  match get o key with
  | VUndefined => d
  | v => v
  end.

(** [v === "s"] *)
Definition is_str (s : string) (v : value) : bool :=
  match v with
  | VStr s' => String.eqb s' s
  | _ => false
  end.

(** [e ?? d] *)
Definition nullish (e d : value) : value :=
  match e with
  | VUndefined | VNull => d
  | _ => e
  end.

(** A formal parameter with no matching argument is bound to [undefined]. *)
Definition param (a : option value) : value :=
  match a with
  | Some v => v
  | None => VUndefined
  end.

(** ** Arrays *)

(** [arr.slice(start, end)], negative indices counting from the end. *)
Definition rel_index (len i : Z) : nat :=
  Z.to_nat (if (i <? 0)%Z then Z.max (len + i) 0 else Z.min i len).

Definition slice {A : Type} (arr : list A) (start stop : Z) : list A :=
  let len := Z.of_nat (length arr) in
  let k := rel_index len start in
  let final := rel_index len stop in
  firstn (final - k) (skipn k arr).

(** [arr.slice(start)] *)
Definition slice_from {A : Type} (arr : list A) (start : Z) : list A :=
  slice arr start (Z.of_nat (length arr)).

(** [arr[i] = e] for an index [i >= 0]: in range it overwrites; past the end
    the array grows, the skipped slots reading as [undefined]. *)
Definition array_set (arr : list value) (i : nat) (e : value) : list value :=
  if decide (i < length arr) then <[i:=e]> arr
  else arr ++ replicate (i - length arr) VUndefined ++ [e].

(** [arr.length = n] for [n >= 0]: truncates, or grows with empty slots
    (which read as [undefined]). *)
Definition set_length (arr : list value) (n : Z) : list value :=
  firstn (Z.to_nat n) arr ++ replicate (Z.to_nat n - length arr) VUndefined.

(** ** Iterators *)

Inductive cursor : Type :=
| CDone
| CRaise (e : error)
| CYield (v : value) (rest : cursor).

(** [it.next()]: [None] is [{done: true}]. *)
Definition next (it : cursor) : res (option value * cursor) :=
  match it with
  | CDone => Ok (None, CDone)
  | CRaise e => Throw e
  | CYield v rest => Ok (Some v, rest)
  end.

(** The cursor that yields [l] and then whatever [tail] does. *)
Fixpoint yield_all (l : list value) (tail : cursor) : cursor :=
  match l with
  | [] => tail
  | v :: l' => CYield v (yield_all l' tail)
  end.

(** The iterator of an array. *)
Definition of_list (l : list value) : cursor := yield_all l CDone.

(** [function* temperamentalIter(iter) { yield* iter; throw new Error("Bang!"); }] *)
Definition temperamentalIter (l : list value) : cursor :=
  yield_all l (CRaise (Error "Bang!")).

(** [[...it]] *)
Fixpoint spread (it : cursor) : res (list value) :=
  match it with
  | CDone => Ok []
  | CRaise e => Throw e
  | CYield v rest => let* l := spread rest in Ok (v :: l)
  end.

(** ** The iterator helpers of the language that [main.js] calls

    [Iterator.prototype.every], [some], [find], [reduce] and [take], as
    ECMAScript defines them.  A callback returns [res]: it may throw, and
    a predicate's result is its truthiness. *)

Definition predicate : Type := value -> Z -> res bool.
Definition reducer : Type := value -> value -> Z -> res value.

Module Iterator.

Fixpoint every (it : cursor) (p : predicate) (counter : Z) : res bool :=
  match it with
  | CDone => Ok true
  | CRaise e => Throw e
  | CYield v rest =>
      let* b := p v counter in
      if b then every rest p (counter + 1) else Ok false
  end.

Fixpoint some (it : cursor) (p : predicate) (counter : Z) : res bool :=
  match it with
  | CDone => Ok false
  | CRaise e => Throw e
  | CYield v rest =>
      let* b := p v counter in
      if b then Ok true else some rest p (counter + 1)
  end.

Fixpoint find (it : cursor) (p : predicate) (counter : Z) : res value :=
  match it with
  | CDone => Ok VUndefined
  | CRaise e => Throw e
  | CYield v rest =>
      let* b := p v counter in
      if b then Ok v else find rest p (counter + 1)
  end.

Fixpoint reduce_from (it : cursor) (f : reducer) (accumulator : value)
    (counter : Z) : res value :=
  match it with
  | CDone => Ok accumulator
  | CRaise e => Throw e
  | CYield v rest =>
      let* acc := f accumulator v counter in
      reduce_from rest f acc (counter + 1)
  end.

(** [it.reduce(f)] is [reduce it f None]; [it.reduce(f, i)] is
    [reduce it f (Some i)]. *)
Definition reduce (it : cursor) (f : reducer) (initialValue : option value)
    : res value :=
  match initialValue with
  | None =>
      let* (first, it') := next it in
      match first with
      | None => Throw (TypeError "Reduce of empty iterator with no initial value")
      | Some v => reduce_from it' f v 1
      end
  | Some i => reduce_from it f i 0
  end.

(** The elements that [it.take(limit)] yields when drained: with nothing
    remaining it ends without pulling from [it]. *)
Fixpoint take_from (remaining : nat) (it : cursor) : res (list value) :=
  match remaining with
  | O => Ok []
  | S remaining' =>
      let* (e, it') := next it in
      match e with
      | None => Ok []
      | Some v => let* l := take_from remaining' it' in Ok (v :: l)
      end
  end.

Definition take (it : cursor) (limit : Z) : res (list value) :=
  if (limit <? 0)%Z then Throw (RangeError "limit must be positive")
  else take_from (Z.to_nat limit) it.

(** The elements that [it.filter(p)] and [it.map(g)] yield when drained;
    both count every element of [it], kept or not. *)
Fixpoint filter_from (it : cursor) (p : predicate) (counter : Z)
    : res (list value) :=
  match it with
  | CDone => Ok []
  | CRaise e => Throw e
  | CYield v rest =>
      let* b := p v counter in
      let* l := filter_from rest p (counter + 1) in
      Ok (if b then v :: l else l)
  end.

Fixpoint map_from (it : cursor) (g : value -> Z -> res value) (counter : Z)
    : res (list value) :=
  match it with
  | CDone => Ok []
  | CRaise e => Throw e
  | CYield v rest =>
      let* w := g v counter in
      let* l := map_from rest g (counter + 1) in
      Ok (w :: l)
  end.

End Iterator.

(** ** The functions of [main.js]

    An [iterable] argument is given as the fresh cursor that
    [iterable[Symbol.iterator]()] returns.  An options bundle is an [obj];
    the empty object stands for an omitted bundle (the parameter's default
    [= {}]). *)

Module Enum.

Definition all (iterable : cursor) (p : predicate) : res bool :=
  Iterator.every iterable p 0.

Definition any (iterable : cursor) (p : predicate) : res bool :=
  Iterator.some iterable p 0.

(** The [for (const e of iterable)] loop of [chunk]; it returns the final
    [result] and [current]. *)
Fixpoint chunk_loop (size : Z) (it : cursor) (result : list (list value))
    (current : list value) : res (list (list value) * list value) :=
  match it with
  | CDone => Ok (result, current)
  | CRaise e => Throw e
  | CYield e rest =>
      let current := current ++ [e] in
      if (Z.of_nat (length current) =? size)%Z
      then chunk_loop size rest (result ++ [current]) []
      else chunk_loop size rest result current
  end.

Definition chunk (iterable : cursor) (size : Z) (options : obj)
    : res (list (list value)) :=
  let strategy := get_default options "strategy" (VStr "dropEnd") in
  let fillValue := get_default options "fillValue" VUndefined in
  if (size <=? 0)%Z then Throw (Error "Cannot yield chunks of size <= 0")
  else
    let* (result, current) := chunk_loop size iterable [] [] in
    if is_str "keepEnd" strategy && negb (Nat.eqb (length current) 0) then
      Ok (result ++ [current])
    else if is_str "padEnd" strategy && negb (Nat.eqb (length current) 0) then
      let current := set_length current size in
      Ok (result ++ [map (fun e => nullish e fillValue) current])
    else if is_str "strict" strategy && negb (Nat.eqb (length current) 0) then
      Throw (Error "Incomplete chunk")
    else Ok result.

Definition find (iterable : cursor) (p : predicate) : res value :=
  Iterator.find iterable p 0.

Fixpoint findIndex_loop (it : cursor) (p : predicate) (i : Z) : res Z :=
  match it with
  | CDone => Ok (-1)%Z
  | CRaise e => Throw e
  | CYield e rest =>
      let* b := p e i in
      if b then Ok i else findIndex_loop rest p (i + 1)
  end.

Definition findIndex (iterable : cursor) (p : predicate) : res Z :=
  findIndex_loop iterable p 0.

Definition is_undefined (v : value) : bool :=
  match v with VUndefined => true | _ => false end.

Definition reduce (iterable : cursor) (f : reducer) (initial : value)
    : res value :=
  if is_undefined initial then Iterator.reduce iterable f None
  else Iterator.reduce iterable f (Some initial).

(** The [for (const e of it)] loop of [scan]. *)
Fixpoint scan_loop (it : cursor) (accumulator : reducer) (current : value)
    (i : Z) (result : list value) : res (list value) :=
  match it with
  | CDone => Ok result
  | CRaise e => Throw e
  | CYield e rest =>
      let* acc := accumulator current e i in
      scan_loop rest accumulator acc (i + 1) (result ++ [acc])
  end.

Definition scan (iterable : cursor) (accumulator : reducer) (initial : value)
    : res (list value) :=
  if negb (is_undefined initial) then
    scan_loop iterable accumulator initial 0 []
  else
    let* (first, it) := next iterable in
    match first with
    | None => Ok []
    | Some v => scan_loop it accumulator v 1 [v]
    end.

Definition take (iterable : cursor) (limit : Z) : res (list value) :=
  Iterator.take iterable limit.

Fixpoint takeWhile_loop (it : cursor) (p : predicate) (i : Z)
    (result : list value) : res (list value) :=
  match it with
  | CDone => Ok result
  | CRaise e => Throw e
  | CYield e rest =>
      let* b := p e i in
      if b then takeWhile_loop rest p (i + 1) (result ++ [e])
      else Ok result
  end.

Definition takeWhile (iterable : cursor) (p : predicate) : res (list value) :=
  takeWhile_loop iterable p 0 [].

(** The first loop of [window]: at most [n] pulls, stopping at [done]. *)
Fixpoint window_fill (n : nat) (it : cursor) (arr : list value)
    : res (list value * cursor) :=
  match n with
  | O => Ok (arr, it)
  | S n' =>
      let* (nx, it') := next it in
      match nx with
      | None => Ok (arr, it')
      | Some v => window_fill n' it' (arr ++ [v])
      end
  end.

(** The second loop of [window]: [arr] is a ring buffer, [front] its oldest
    slot.  [%] is the truncated remainder [Z.rem]. *)
Fixpoint window_loop (size : Z) (it : cursor) (arr : list value) (front : Z)
    (result : list (list value)) : res (list (list value)) :=
  match it with
  | CDone => Ok result
  | CRaise e => Throw e
  | CYield e rest =>
      let arr := array_set arr (Z.to_nat front) e in
      let front := Z.rem (front + 1) size in
      window_loop size rest arr front
        (result ++ [slice_from arr front ++ slice arr 0 front])
  end.

Definition window (iterable : cursor) (size : Z) : res (list (list value)) :=
  if (size =? 0)%Z then Throw (Error "Cannot yield sliding windows of size 0")
  else
    let* (arr, it) := window_fill (Z.to_nat size) iterable [] in
    if (Z.of_nat (length arr) <? size)%Z then Ok []
    else window_loop size it arr 0 [arr].

(** *** zip *)

(** One round of [zipShortest]'s inner loop over the iterators, each pulled
    once in order: [None] when one is done ([return result]), otherwise the
    batch and the advanced iterators. *)
Fixpoint zipShortest_batch (iterables : list cursor)
    : res (option (list value * list cursor)) :=
  match iterables with
  | [] => Ok (Some ([], []))
  | it :: its =>
      let* (nx, it') := next it in
      match nx with
      | None => Ok None
      | Some v =>
          let* r := zipShortest_batch its in
          match r with
          | None => Ok None
          | Some (batch, its') => Ok (Some (v :: batch, it' :: its'))
          end
      end
  end.

Fixpoint zipShortest_loop (fuel : nat) (iterables : list cursor)
    (result : list (list value)) : option (res (list (list value))) :=
  match fuel with
  | O => None
  | S fuel' =>
      match zipShortest_batch iterables with
      | Throw e => Some (Throw e)
      | Ok None => Some (Ok result)
      | Ok (Some (batch, its')) =>
          zipShortest_loop fuel' its' (result ++ [batch])
      end
  end.

Definition zipShortest (fuel : nat) (iterables : list cursor)
    : option (res (list (list value))) :=
  zipShortest_loop fuel iterables [].

(** One round of [zipLongest]: the batch, the count [done] and the advanced
    iterators. *)
Fixpoint zipLongest_batch (iterables : list cursor) (fillValue : value)
    : res (list value * nat * list cursor) :=
  match iterables with
  | [] => Ok ([], 0, [])
  | it :: its =>
      let* (nx, it') := next it in
      let* (batch, ndone, its') := zipLongest_batch its fillValue in
      match nx with
      | None => Ok (fillValue :: batch, S ndone, it' :: its')
      | Some v => Ok (v :: batch, ndone, it' :: its')
      end
  end.

Fixpoint zipLongest_loop (fuel : nat) (iterables : list cursor)
    (fillValue : value) (result : list (list value))
    : option (res (list (list value))) :=
  match fuel with
  | O => None
  | S fuel' =>
      match zipLongest_batch iterables fillValue with
      | Throw e => Some (Throw e)
      | Ok (batch, ndone, its') =>
          if Nat.eqb ndone (length iterables) then Some (Ok result)
          else zipLongest_loop fuel' its' fillValue (result ++ [batch])
      end
  end.

Definition zipLongest (fuel : nat) (iterables : list cursor)
    (fillValue : value) : option (res (list (list value))) :=
  zipLongest_loop fuel iterables fillValue [].

(** One round of [zipStrict]: exhausted iterators add nothing to the batch. *)
Fixpoint zipStrict_batch (iterables : list cursor)
    : res (list value * nat * list cursor) :=
  match iterables with
  | [] => Ok ([], 0, [])
  | it :: its =>
      let* (nx, it') := next it in
      let* (batch, ndone, its') := zipStrict_batch its in
      match nx with
      | None => Ok (batch, S ndone, it' :: its')
      | Some v => Ok (v :: batch, ndone, it' :: its')
      end
  end.

Fixpoint zipStrict_loop (fuel : nat) (iterables : list cursor)
    (result : list (list value)) : option (res (list (list value))) :=
  match fuel with
  | O => None
  | S fuel' =>
      match zipStrict_batch iterables with
      | Throw e => Some (Throw e)
      | Ok (batch, ndone, its') =>
          if Nat.eqb ndone 0 then zipStrict_loop fuel' its' (result ++ [batch])
          else if Nat.eqb ndone (length iterables) then Some (Ok result)
          else Some (Throw (Error
                 "Zipped iterables of unequal length with strategy = strict"))
      end
  end.

Definition zipStrict (fuel : nat) (iterables : list cursor)
    : option (res (list (list value))) :=
  zipStrict_loop fuel iterables [].

(** An argument of [zip]: an iterator object, or a plain value (an array
    and a string are iterable, an options bundle is a [VObj]). *)
Inductive arg : Type :=
| AIter (it : cursor)
| AVal (v : value).

Definition chars (s : string) : list value :=
  map (fun c => VStr (String c EmptyString)) (list_ascii_of_string s).

(** [iter(iterable)]: calling a missing [Symbol.iterator] is a [TypeError]. *)
Definition iter (a : arg) : res cursor :=
  match a with
  | AIter it => Ok it
  | AVal (VArr l) => Ok (of_list l)
  | AVal (VStr s) => Ok (of_list (chars s))
  | AVal _ => Throw (TypeError "iterable[Symbol.iterator] is not a function")
  end.

(** [args.map(iter)] *)
Fixpoint map_iter (args : list arg) : res (list cursor) :=
  match args with
  | [] => Ok []
  | a :: args' =>
      let* it := iter a in
      let* its := map_iter args' in
      Ok (it :: its)
  end.

(** [typeof last === "object" && last !== null && "strategy" in last] *)
Definition options_of (last : option arg) : option obj :=
  match last with
  | Some (AVal (VObj o)) => if has o "strategy" then Some o else None
  | _ => None
  end.

Definition dquote : string := String "034"%char EmptyString.

(** The template literal [`Unrecognised strategy: "${options}"`]: a plain
    object converts to the string [[object Object]]. *)
Definition unrecognised (options : obj) : string :=
  "Unrecognised strategy: " ++ dquote ++ "[object Object]" ++ dquote.

Definition zip (fuel : nat) (args : list arg)
    : option (res (list (list value))) :=
  let parsed :=
    match options_of (last args) with
    | Some o => (o, map_iter (slice args 0 (-1)))
    | None => ([("strategy", VStr "shortest")], map_iter args)
    end in
  let options := fst parsed in
  match snd parsed with
  | Throw e => Some (Throw e)
  | Ok iterables =>
      let strategy := get options "strategy" in
      if is_str "shortest" strategy then zipShortest fuel iterables
      else if is_str "longest" strategy then
        zipLongest fuel iterables (get options "fillValue")
      else if is_str "strict" strategy then zipStrict fuel iterables
      else Some (Throw (Error (unrecognised options)))
  end.

(** *** The remaining functions

    Declared last: several of them take the names of list functions. *)

(** A callback that maps an element and its index. *)
Definition mapping : Type := value -> Z -> res value.

(** A comparison of two elements, the [eq] of [dedup]'s options. *)
Definition equality : Type := value -> value -> res bool.

(** [result.at(-1)] *)
Definition at_last (result : list value) : value :=
  match last result with
  | Some v => v
  | None => VUndefined
  end.

Fixpoint chain_loop (iterables : list cursor) (result : list value)
    : res (list value) :=
  match iterables with
  | [] => Ok result
  | it :: rest =>
      let* l := spread it in
      chain_loop rest (result ++ l)
  end.

Definition chain (iterables : list cursor) : res (list value) :=
  chain_loop iterables [].

(** [consume] returns nothing, that is [undefined]. *)
Fixpoint consume (iterable : cursor) : res value :=
  match iterable with
  | CDone => Ok VUndefined
  | CRaise e => Throw e
  | CYield _ rest => consume rest
  end.

Fixpoint dedup_loop (it : cursor) (eq : equality) (result : list value)
    : res (list value) :=
  match it with
  | CDone => Ok result
  | CRaise e => Throw e
  | CYield e rest =>
      let* same := eq (at_last result) e in
      if negb same then dedup_loop rest eq (result ++ [e])
      else dedup_loop rest eq result
  end.

(** [eq] is the comparison of the options; the caller of the model passes
    the default [(left, right) => left === right] explicitly. *)
Definition dedup (iterable : cursor) (eq : equality) : res (list value) :=
  let* (first, it) := next iterable in
  match first with
  | None => Ok []
  | Some v => dedup_loop it eq [v]
  end.

(** [for (let i = 0; i < limit; i++) { it.next(); }] *)
Fixpoint drop_loop (n : nat) (it : cursor) : res cursor :=
  match n with
  | O => Ok it
  | S n' =>
      let* (_, it') := next it in
      drop_loop n' it'
  end.

Definition drop (iterable : cursor) (limit : Z) : res (list value) :=
  let* it := drop_loop (Z.to_nat limit) iterable in
  spread it.

Fixpoint dropWhile_loop (it : cursor) (p : predicate) (i : Z)
    : res (list value) :=
  match it with
  | CDone => Ok []
  | CRaise e => Throw e
  | CYield v rest =>
      let* b := p v i in
      if b then dropWhile_loop rest p (i + 1)
      else let* l := spread rest in Ok (v :: l)
  end.

Definition dropWhile (iterable : cursor) (p : predicate) : res (list value) :=
  dropWhile_loop iterable p 0.

Definition filter (iterable : cursor) (p : predicate) : res (list value) :=
  Iterator.filter_from iterable p 0.

(** The mapping of [flatMap] returns an iterable, which is spread. *)
Fixpoint flatMap_loop (it : cursor) (f : value -> Z -> res cursor) (i : Z)
    (result : list value) : res (list value) :=
  match it with
  | CDone => Ok result
  | CRaise e => Throw e
  | CYield e rest =>
      let* inner := f e i in
      let* l := spread inner in
      flatMap_loop rest f (i + 1) (result ++ l)
  end.

Definition flatMap (iterable : cursor) (f : value -> Z -> res cursor)
    : res (list value) :=
  flatMap_loop iterable f 0 [].

(** [forEach] exists for the effect of its consumer: the consumer acts on a
    state [S], which is threaded through the calls. *)
Fixpoint forEach_loop {S : Type} (it : cursor)
    (consumer : value -> Z -> S -> res S) (i : Z) (st : S) : res S :=
  match it with
  | CDone => Ok st
  | CRaise e => Throw e
  | CYield e rest =>
      let* st' := consumer e i st in
      forEach_loop rest consumer (i + 1) st'
  end.

Definition forEach {S : Type} (iterable : cursor)
    (consumer : value -> Z -> S -> res S) (st : S) : res S :=
  forEach_loop iterable consumer 0 st.

Fixpoint length_loop (it : cursor) (count : Z) : res Z :=
  match it with
  | CDone => Ok count
  | CRaise e => Throw e
  | CYield _ rest => length_loop rest (count + 1)
  end.

Definition length (iterable : cursor) : res Z := length_loop iterable 0.

Definition map (iterable : cursor) (g : mapping) : res (list value) :=
  Iterator.map_from iterable g 0.

(** [for (let i = 0; i < times; i++) { result.push(object); }] *)
Fixpoint repeat_loop (n : nat) (object : value) (result : list value)
    : list value :=
  match n with
  | O => result
  | S n' => repeat_loop n' object (result ++ [object])
  end.

Definition repeat (object : value) (times : Z) : list value :=
  repeat_loop (Z.to_nat times) object [].

Definition reverse (iterable : cursor) : res (list value) :=
  let* result := spread iterable in
  Ok (rev result).

End Enum.

(** ** Reference functions and sample inputs

    The functions on plain lists in terms of which the properties below
    are stated. *)

Definition nums (l : list Z) : list value := map VNum l.

Definition strategy_only (name : string) : obj := [("strategy", VStr name)].

Definition with_fill (name : string) (fillValue : value) : obj :=
  [("strategy", VStr name); ("fillValue", fillValue)].

(** The position-wise pairs of two lists, as far as both reach. *)
Definition pairs (a b : list value) : list (list value) :=
  zip_with (fun x y => [x; y]) a b.

(** The contiguous slice [s[i .. i+k-1]]. *)
Definition slice_at (s : list value) (i k : nat) : list value :=
  firstn k (skipn i s).

(** The windows that follow the window [w] as the elements of [rest]
    arrive, each dropping the oldest element and taking the new one. *)
Fixpoint slide (w rest : list value) : list (list value) :=
  match rest with
  | [] => []
  | e :: rest' => let w' := skipn 1 w ++ [e] in w' :: slide w' rest'
  end.

(** Left fold of [f] over [l] from accumulator [acc], the first element
    getting index [i]; an error of [f] ends it. *)
Fixpoint fold_from (f : reducer) (acc : value) (i : Z) (l : list value)
    : res value :=
  match l with
  | [] => Ok acc
  | e :: l' => let* acc' := f acc e i in fold_from f acc' (i + 1) l'
  end.

(** The successive accumulators of that fold, one per element of [l]. *)
Fixpoint running (f : reducer) (acc : value) (i : Z) (l : list value)
    : res (list value) :=
  match l with
  | [] => Ok []
  | e :: l' =>
      let* acc' := f acc e i in
      let* rest := running f acc' (i + 1) l' in
      Ok (acc' :: rest)
  end.

(** The predicate answers [b] at position [k] of [xs] and the opposite at
    every earlier position, the element at position [j] being presented
    with index [c + j]: the first [k + 1] elements decide the outcome. *)
Definition decided_from (p : predicate) (c : Z) (xs : list value) (k : nat)
    (b : bool) : Prop :=
  (exists v, xs !! k = Some v /\ p v (c + Z.of_nat k)%Z = Ok b)
  /\ forall j v, j < k -> xs !! j = Some v ->
       p v (c + Z.of_nat j)%Z = Ok (negb b).

Definition decided_at (p : predicate) (xs : list value) (k : nat) (b : bool)
    : Prop :=
  decided_from p 0 xs k b.

(** The callbacks of the documented examples, on the operands those
    examples use; [+] on other operands is outside the model and is made an
    error here.  [(a, e) => a + e]: *)
Definition plus : reducer := fun a e _ =>
  match a, e with
  | VNum x, VNum y => Ok (VNum (x + y))
  | VStr x, VStr y => Ok (VStr (x ++ y))
  | _, _ => Throw (TypeError "operands of + outside the model")
  end.

(** [(a, e) => a + e.length] *)
Definition plus_length : reducer := fun a e _ =>
  match a, e with
  | VNum x, VStr y => Ok (VNum (x + Z.of_nat (String.length y)))
  | _, _ => Throw (TypeError "operands of + outside the model")
  end.

(** [(e) => e === v] for a number [v], and its negation. *)
Definition is_num (v : Z) : predicate := fun e _ =>
  match e with
  | VNum x => Ok (x =? v)%Z
  | _ => Ok false
  end.

Definition is_not_num (v : Z) : predicate := fun e _ =>
  match e with
  | VNum x => Ok (negb (x =? v)%Z)
  | _ => Ok true
  end.

(** Callbacks that neither throw nor have an effect. *)
Definition pure_pred (q : value -> Z -> bool) : predicate :=
  fun v i => Ok (q v i).

Definition pure_map (g : value -> Z -> value) : Enum.mapping :=
  fun v i => Ok (g v i).

Definition pure_eq (r : value -> value -> bool) : Enum.equality :=
  fun a b => Ok (r a b).

(** The elements of [l] that satisfy [q], the first element of [l] being
    presented with index [i]. *)
Fixpoint filter_indexed (q : value -> Z -> bool) (i : Z) (l : list value)
    : list value :=
  match l with
  | [] => []
  | v :: l' =>
      if q v i then v :: filter_indexed q (i + 1) l'
      else filter_indexed q (i + 1) l'
  end.

(** The images of the elements of [l] under [g], indexed from [i]. *)
Fixpoint map_indexed (g : value -> Z -> value) (i : Z) (l : list value)
    : list value :=
  match l with
  | [] => []
  | v :: l' => g v i :: map_indexed g (i + 1) l'
  end.

(** The longest prefix of [l] whose elements satisfy [q], and what is left
    after it. *)
Fixpoint prefix_while (q : value -> Z -> bool) (i : Z) (l : list value)
    : list value :=
  match l with
  | [] => []
  | v :: l' => if q v i then v :: prefix_while q (i + 1) l' else []
  end.

Fixpoint suffix_after (q : value -> Z -> bool) (i : Z) (l : list value)
    : list value :=
  match l with
  | [] => []
  | v :: l' => if q v i then suffix_after q (i + 1) l' else l
  end.

(** A group of exactly [n] elements. *)
Definition full_group (n : Z) (g : list value) : Prop :=
  Z.of_nat (length g) = n.

(** What is kept of [s] after an element [prev] that has been kept: an
    element related to the last kept one is passed over. *)
Fixpoint dedup_from (r : value -> value -> bool) (prev : value)
    (s : list value) : list value :=
  match s with
  | [] => []
  | e :: s' =>
      if r prev e then dedup_from r prev s' else e :: dedup_from r e s'
  end.

(** No two neighbours of [l] are related by [r]. *)
Fixpoint no_adjacent (r : value -> value -> bool) (l : list value) : Prop :=
  match l with
  | [] => True
  | x :: l' =>
      match l' with
      | [] => True
      | y :: _ => r x y = false /\ no_adjacent r l'
      end
  end.

(** [n] tuples of two lists, [fillValue] standing in for a list that has
    run out; and the tuples as far as the longer list reaches. *)
Fixpoint padded (n : nat) (fillValue : value) (a b : list value)
    : list (list value) :=
  match n with
  | O => []
  | S n' =>
      [hd fillValue a; hd fillValue b] :: padded n' fillValue (tl a) (tl b)
  end.

Definition padded_pairs (fillValue : value) (a b : list value)
    : list (list value) :=
  padded (Nat.max (length a) (length b)) fillValue a b.

(** Sample mappings: [(e) => e + 1] and [(e, i) => e + i] on numbers (other
    operands of [+] are outside the model and are left as they are). *)
Definition succ_num (e : value) (i : Z) : value :=
  match e with
  | VNum x => VNum (x + 1)
  | _ => e
  end.

Definition plus_index (e : value) (i : Z) : value :=
  match e with
  | VNum x => VNum (x + i)
  | _ => e
  end.

(** [(l, r) => l === r] on numbers. *)
Definition same_num (l r : value) : bool :=
  match l, r with
  | VNum x, VNum y => (x =? y)%Z
  | _, _ => false
  end.

(** The first elements of the lists of [ls] and what is left of each, when
    none of them is empty. *)
Fixpoint heads (ls : list (list value))
    : option (list value * list (list value)) :=
  match ls with
  | [] => Some ([], [])
  | l :: ls' =>
      match l with
      | [] => None
      | x :: t =>
          match heads ls' with
          | None => None
          | Some (hs, ts) => Some (x :: hs, t :: ts)
          end
      end
  end.

(** The consumer [(e, i) => log.push([e, i])]. *)
Definition record_call (e : value) (i : Z) (log : list (value * Z))
    : res (list (value * Z)) :=
  Ok (log ++ [(e, i)]).

(** The elements of [l] paired with their indices, counted from [i]. *)
Fixpoint indexed (i : Z) (l : list value) : list (value * Z) :=
  match l with
  | [] => []
  | v :: l' => (v, i) :: indexed (i + 1) l'
  end.

(** * Properties *)

(** ** chunk *)

Section Chunk.

Variable size : Z.

(** The loop never loses an element: the groups it has emitted, followed by
    the group under construction, are the elements consumed so far. *)
Lemma chunk_loop_flat (s : list value) :
  forall result current, exists r c,
    Enum.chunk_loop size (of_list s) result current = Ok (r, c)
    /\ concat r ++ c = concat result ++ current ++ s.
Proof.
  induction s as [|x s IH]; intros result current.
  - exists result, current. split; [reflexivity|]. by rewrite app_nil_r.
  - change (of_list (x :: s)) with (CYield x (of_list s)). cbn [Enum.chunk_loop].
    destruct (Z.of_nat (length (current ++ [x])) =? size)%Z.
    + destruct (IH (result ++ [current ++ [x]]) []) as (r & c & -> & Hflat).
      exists r, c. split; [reflexivity|].
      rewrite Hflat, concat_app. cbn. by rewrite !app_nil_r, <- !app_assoc.
    + destruct (IH result (current ++ [x])) as (r & c & -> & Hflat).
      exists r, c. split; [reflexivity|].
      by rewrite Hflat, <- !app_assoc.
Qed.

(** A group under construction stays shorter than [size]. *)
Lemma chunk_loop_short (s : list value) :
  forall result current r c,
    (Z.of_nat (length current) < size)%Z ->
    Enum.chunk_loop size (of_list s) result current = Ok (r, c) ->
    (Z.of_nat (length c) < size)%Z.
Proof.
  induction s as [|x s IH]; intros result current r c Hlen.
  - cbn. intros [= <- <-]. exact Hlen.
  - change (of_list (x :: s)) with (CYield x (of_list s)). cbn [Enum.chunk_loop].
    destruct (Z.eqb_spec (Z.of_nat (length (current ++ [x]))) size) as [Heq|Hne].
    + apply IH. cbn. rewrite length_app in Heq. cbn in Heq. lia.
    + apply IH. rewrite length_app in *. cbn in *. lia.
Qed.

End Chunk.

(** An input shorter than [size] is one group under construction. *)
Lemma chunk_loop_partial (size : Z) (s : list value) :
  forall current,
    (Z.of_nat (length current + length s) < size)%Z ->
    Enum.chunk_loop size (of_list s) [] current = Ok ([], current ++ s).
Proof.
  induction s as [|x s IH]; intros current Hlen.
  - cbn. by rewrite app_nil_r.
  - change (of_list (x :: s)) with (CYield x (of_list s)). cbn [Enum.chunk_loop].
    cbn [length] in Hlen.
    destruct (Z.eqb_spec (Z.of_nat (length (current ++ [x]))) size) as [Heq|Hne].
    + rewrite length_app in Heq. cbn in Heq. lia.
    + rewrite IH; [by rewrite <- app_assoc|].
      rewrite length_app. cbn. lia.
Qed.

(** C9: under [keepEnd] the groups of [chunk], concatenated in order, are
    the input sequence, for every positive size. *)
Theorem chunk_keepEnd_lossless (s : list value) (n : Z) (options : obj) :
  (0 < n)%Z ->
  get options "strategy" = VStr "keepEnd" ->
  exists groups,
    Enum.chunk (of_list s) n options = Ok groups /\ concat groups = s.
Proof.
  intros Hn Hstrategy. unfold Enum.chunk, get_default. rewrite Hstrategy.
  destruct (Z.leb_spec n 0) as [?|_]; [lia|].
  destruct (chunk_loop_flat n s [] []) as (r & c & -> & Hflat).
  cbn in Hflat. cbn [bind is_str String.eqb Ascii.eqb Bool.eqb andb].
  destruct c as [|x c]; cbn.
  - exists r. split; [reflexivity|]. by rewrite app_nil_r in Hflat.
  - exists (r ++ [x :: c]). split; [reflexivity|].
    rewrite concat_app. cbn. by rewrite app_nil_r.
Qed.

Lemma chunk_keepEnd_lossless_witness :
  exists groups,
    Enum.chunk (of_list (nums [1; 2; 3; 4; 5]%Z)) 2 (strategy_only "keepEnd")
      = Ok groups
    /\ concat groups = nums [1; 2; 3; 4; 5]%Z.
Proof.
  apply (chunk_keepEnd_lossless (nums [1; 2; 3; 4; 5]%Z) 2
           (strategy_only "keepEnd")); [lia | reflexivity].
Defined.

(** What [padEnd] does to an input shorter than [size]: every slot goes
    through [e ?? fillValue], the slots drawn from the input as well as the
    slots added by [current.length = size]. *)
Lemma chunk_padEnd_partial (s : list value) (n : Z) (fillValue : value) :
  s <> [] ->
  (Z.of_nat (length s) < n)%Z ->
  Enum.chunk (of_list s) n (with_fill "padEnd" fillValue)
  = Ok [map (fun e => nullish e fillValue) s
        ++ replicate (Z.to_nat n - length s) fillValue].
Proof.
  intros Hs Hlen. unfold Enum.chunk.
  destruct (Z.leb_spec n 0) as [?|_]; [lia|].
  rewrite (chunk_loop_partial n s []) by (cbn; lia).
  cbn [app bind]. destruct s as [|x s]; [done|].
  assert (Hstr : get_default (with_fill "padEnd" fillValue) "strategy"
                   (VStr "dropEnd") = VStr "padEnd") by reflexivity.
  assert (Hfill : get_default (with_fill "padEnd" fillValue) "fillValue"
                    VUndefined = fillValue).
  { unfold get_default. cbn. by destruct fillValue. }
  rewrite Hstr, Hfill.
  cbn [is_str String.eqb Ascii.eqb Bool.eqb andb length Nat.eqb negb].
  unfold set_length. rewrite firstn_all2 by lia.
  rewrite map_app. do 3 f_equal.
  change (length (x :: s)) with (S (length s)).
  generalize (Z.to_nat n - S (length s)). intros k.
  induction k as [|k IH]; [reflexivity|]. cbn [replicate map].
  by rewrite IH.
Qed.

(** C2: [chunk([1, 2, null], 2, {strategy: "padEnd", fillValue: 999})]
    returns [[[1, 2], [999, 999]]]: the [null] drawn from the input is
    overwritten by the fill value. *)
Theorem chunk_padEnd_overwrites_null :
  Enum.chunk (of_list [VNum 1; VNum 2; VNull]) 2 (with_fill "padEnd" (VNum 999))
  = Ok [[VNum 1; VNum 2]; [VNum 999; VNum 999]].
Proof. reflexivity. Qed.

(** With the default fill value a drawn [null] comes back as [undefined]. *)
Example chunk_padEnd_default_null :
  Enum.chunk (of_list [VNull]) 2 (strategy_only "padEnd")
  = Ok [[VUndefined; VUndefined]].
Proof. reflexivity. Qed.

(** The documented examples of [chunk]. *)
Example chunk_dropEnd_example :
  Enum.chunk (of_list (nums [1; 2; 3; 4; 5]%Z)) 2 []
  = Ok [nums [1; 2]%Z; nums [3; 4]%Z].
Proof. reflexivity. Qed.

Example chunk_padEnd_example :
  Enum.chunk (of_list (nums [1; 2; 3; 4; 5]%Z)) 2 (with_fill "padEnd" (VNum 999))
  = Ok [nums [1; 2]%Z; nums [3; 4]%Z; nums [5; 999]%Z].
Proof. reflexivity. Qed.

Example chunk_strict_example :
  Enum.chunk (of_list (nums [1; 2; 3; 4; 5]%Z)) 2 (strategy_only "strict")
  = Throw (Error "Incomplete chunk").
Proof. reflexivity. Qed.

(** ** Strategy names *)

Lemma is_str_ne (s : string) (v : value) : v <> VStr s -> is_str s v = false.
Proof.
  destruct v; try reflexivity. cbn. intros Hne.
  apply String.eqb_neq. congruence.
Qed.

(** [chunk] has no branch for an unknown strategy: whatever is not
    [keepEnd], [padEnd] or [strict] takes the path of [dropEnd]. *)
Lemma chunk_other_strategy (it : cursor) (size : Z) (options : obj) :
  get options "strategy" <> VStr "keepEnd" ->
  get options "strategy" <> VStr "padEnd" ->
  get options "strategy" <> VStr "strict" ->
  Enum.chunk it size options = Enum.chunk it size (strategy_only "dropEnd").
Proof.
  intros Hk Hp Hs. unfold Enum.chunk.
  set (st := get_default options "strategy" (VStr "dropEnd")).
  assert (st <> VStr "keepEnd" /\ st <> VStr "padEnd" /\ st <> VStr "strict")
    as (Hk' & Hp' & Hs').
  { unfold st, get_default. destruct (get options "strategy"); done. }
  rewrite (is_str_ne _ _ Hk'), (is_str_ne _ _ Hp'), (is_str_ne _ _ Hs').
  destruct (size <=? 0)%Z; [reflexivity|].
  destruct (Enum.chunk_loop size it [] []) as [[r c]|e]; reflexivity.
Qed.

Lemma slice_init {A : Type} (l : list A) (x : A) : slice (l ++ [x]) 0 (-1) = l.
Proof.
  unfold slice, rel_index. rewrite length_app. cbn [length].
  replace (0 <? 0)%Z with false by reflexivity.
  replace (-1 <? 0)%Z with true by reflexivity.
  replace (Z.to_nat (Z.min 0 (Z.of_nat (length l + 1)))) with 0 by lia.
  replace (Z.to_nat (Z.max (Z.of_nat (length l + 1) + -1) 0) - 0)
    with (length l) by lia.
  rewrite drop_0. by rewrite take_app_length.
Qed.

(** [zip] with a trailing options bundle whose strategy is none of the three
    names reaches the [default] case, unless [iter] has thrown first. *)
Lemma zip_other_strategy (fuel : nat) (data : list Enum.arg) (options : obj) :
  has options "strategy" = true ->
  get options "strategy" <> VStr "shortest" ->
  get options "strategy" <> VStr "longest" ->
  get options "strategy" <> VStr "strict" ->
  Enum.zip fuel (data ++ [Enum.AVal (VObj options)])
  = match Enum.map_iter data with
    | Throw e => Some (Throw e)
    | Ok _ => Some (Throw (Error (Enum.unrecognised options)))
    end.
Proof.
  intros Hhas H1 H2 H3. unfold Enum.zip.
  rewrite last_snoc. cbn [Enum.options_of]. rewrite Hhas, slice_init.
  cbn [fst snd].
  rewrite (is_str_ne _ _ H1), (is_str_ne _ _ H2), (is_str_ne _ _ H3).
  reflexivity.
Qed.

(** C3, as the code has it: [zip] given an options bundle with an
    unrecognised strategy raises an error and returns nothing, for every
    fuel; [chunk] given an unrecognised strategy does not raise on that
    account and returns exactly what [dropEnd] returns. *)
Theorem unrecognised_strategy (fuel : nat) (data : list Enum.arg) (zoptions : obj)
    (it : cursor) (size : Z) (coptions : obj) :
  has zoptions "strategy" = true ->
  get zoptions "strategy" <> VStr "shortest" ->
  get zoptions "strategy" <> VStr "longest" ->
  get zoptions "strategy" <> VStr "strict" ->
  get coptions "strategy" <> VStr "keepEnd" ->
  get coptions "strategy" <> VStr "padEnd" ->
  get coptions "strategy" <> VStr "strict" ->
  (exists e, Enum.zip fuel (data ++ [Enum.AVal (VObj zoptions)]) = Some (Throw e))
  /\ Enum.chunk it size coptions = Enum.chunk it size (strategy_only "dropEnd").
Proof.
  intros Hhas H1 H2 H3 Hk Hp Hs. split.
  - rewrite zip_other_strategy by assumption.
    destruct (Enum.map_iter data); eauto.
  - by apply chunk_other_strategy.
Qed.

Lemma unrecognised_strategy_witness :
  (exists e,
     Enum.zip 0 ([Enum.AVal (VArr (nums [1; 2]%Z)); Enum.AVal (VStr "ab")]
                 ++ [Enum.AVal (VObj (strategy_only "foo"))]) = Some (Throw e))
  /\ Enum.chunk (of_list (nums [1; 2; 3]%Z)) 2 (strategy_only "foo")
     = Enum.chunk (of_list (nums [1; 2; 3]%Z)) 2 (strategy_only "dropEnd").
Proof.
  apply (unrecognised_strategy 0 [Enum.AVal (VArr (nums [1; 2]%Z)); Enum.AVal (VStr "ab")]
           (strategy_only "foo") (of_list (nums [1; 2; 3]%Z)) 2
           (strategy_only "foo")); cbn; congruence.
Defined.

(** C3 as stated fails: [chunk([1, 2, 3], 2, {strategy: "foo"})] raises
    nothing and returns [[[1, 2]]]. *)
Lemma unrecognised_strategy_chunk_returns :
  Enum.chunk (of_list (nums [1; 2; 3]%Z)) 2 (strategy_only "foo")
  = Ok [nums [1; 2]%Z]
  /\ ~ raises (Enum.chunk (of_list (nums [1; 2; 3]%Z)) 2 (strategy_only "foo")).
Proof.
  split; [reflexivity|]. intros [e He]. discriminate He.
Qed.

(** The message of [zip]'s error interpolates the bundle, not the name. *)
Example zip_unrecognised_message :
  Enum.zip 0 [Enum.AVal (VArr (nums [1; 2]%Z)); Enum.AVal (VObj (strategy_only "foo"))]
  = Some (Throw (Error (Enum.unrecognised (strategy_only "foo")))).
Proof. reflexivity. Qed.

(** ** zip *)

(** With no iterator to pull from, a round of [zipShortest] or [zipStrict]
    pushes an empty batch and the [while (true)] loop goes round again:
    no amount of fuel reaches a [return]. *)
Lemma zipShortest_loop_nil (fuel : nat) :
  forall result, Enum.zipShortest_loop fuel [] result = None.
Proof. induction fuel as [|fuel IH]; intros result; cbn; [reflexivity | apply IH]. Qed.

Lemma zipStrict_loop_nil (fuel : nat) :
  forall result, Enum.zipStrict_loop fuel [] result = None.
Proof. induction fuel as [|fuel IH]; intros result; cbn; [reflexivity | apply IH]. Qed.

(** C1: with zero data iterables [zip] does not return under the default
    strategy, under an explicit [shortest] or under [strict], whatever the
    fuel; only [longest] returns the empty result. *)
Theorem zip_no_iterables (fuel : nat) :
  Enum.zip fuel [] = None
  /\ Enum.zip fuel [Enum.AVal (VObj (strategy_only "shortest"))] = None
  /\ Enum.zip fuel [Enum.AVal (VObj (strategy_only "strict"))] = None
  /\ Enum.zip (S fuel) [Enum.AVal (VObj (strategy_only "longest"))] = Some (Ok []).
Proof.
  repeat split.
  - apply zipShortest_loop_nil.
  - apply zipShortest_loop_nil.
  - apply zipStrict_loop_nil.
Qed.

(** The tested "nothing to zip" is one empty iterable, which does return. *)
Example zip_one_empty_iterable : Enum.zip 1 [Enum.AVal (VArr [])] = Some (Ok []).
Proof. reflexivity. Qed.

(** One round over two array iterators. *)
Lemma zipShortest_two (a b : list value) :
  forall fuel result,
    Nat.min (length a) (length b) < fuel ->
    Enum.zipShortest_loop fuel [of_list a; of_list b] result
    = Some (Ok (result ++ pairs a b)).
Proof.
  revert b. induction a as [|x a IH]; intros b fuel result Hfuel.
  { destruct fuel; [lia|]. cbn. by rewrite app_nil_r. }
  destruct fuel as [|fuel]; [lia|].
  destruct b as [|y b].
  { cbn. by rewrite app_nil_r. }
  change (Enum.zipShortest_loop (S fuel) [of_list (x :: a); of_list (y :: b)] result)
    with (Enum.zipShortest_loop fuel [of_list a; of_list b] (result ++ [[x; y]])).
  rewrite IH by (cbn in Hfuel; lia).
  unfold pairs. cbn. by rewrite <- app_assoc.
Qed.

Lemma zipLongest_two (a b : list value) (fillValue : value) :
  forall fuel result,
    Nat.max (length a) (length b) < fuel ->
    exists r,
      Enum.zipLongest_loop fuel [of_list a; of_list b] fillValue result
      = Some (Ok (result ++ r))
      /\ length r = Nat.max (length a) (length b).
Proof.
  revert b. induction a as [|x a IH].
  - induction b as [|y b IHb]; intros fuel result Hfuel;
      (destruct fuel as [|fuel]; [cbn in Hfuel; lia|]).
    + exists []. cbn. by rewrite app_nil_r.
    + destruct (IHb fuel (result ++ [[fillValue; y]])) as (r & Hr & Hlen).
      { cbn in *. lia. }
      exists ([fillValue; y] :: r). split.
      * rewrite <- app_assoc in Hr. exact Hr.
      * cbn in *. lia.
  - intros b fuel result Hfuel. destruct fuel as [|fuel]; [lia|].
    destruct b as [|y b].
    + destruct (IH [] fuel (result ++ [[x; fillValue]])) as (r & Hr & Hlen).
      { cbn in *. lia. }
      exists ([x; fillValue] :: r). split.
      * rewrite <- app_assoc in Hr. exact Hr.
      * cbn in *. lia.
    + destruct (IH b fuel (result ++ [[x; y]])) as (r & Hr & Hlen).
      { cbn in *. lia. }
      exists ([x; y] :: r). split.
      * rewrite <- app_assoc in Hr. exact Hr.
      * cbn in *. lia.
Qed.

Lemma zipStrict_two (a b : list value) :
  forall fuel result,
    Nat.min (length a) (length b) < fuel ->
    Enum.zipStrict_loop fuel [of_list a; of_list b] result
    = if decide (length a = length b) then Some (Ok (result ++ pairs a b))
      else Some (Throw (Error
             "Zipped iterables of unequal length with strategy = strict")).
Proof.
  revert b. induction a as [|x a IH]; intros b fuel result Hfuel;
    (destruct fuel as [|fuel]; [lia|]); destruct b as [|y b].
  - cbn. by rewrite app_nil_r.
  - reflexivity.
  - reflexivity.
  - change (Enum.zipStrict_loop (S fuel) [of_list (x :: a); of_list (y :: b)] result)
      with (Enum.zipStrict_loop fuel [of_list a; of_list b] (result ++ [[x; y]])).
    rewrite IH by (cbn in Hfuel; lia).
    cbn [length]. unfold pairs. cbn [zip_with].
    destruct (decide (length a = length b)), (decide (S (length a) = S (length b)));
      try lia; [|reflexivity].
    by rewrite <- app_assoc.
Qed.

Lemma length_pairs (a b : list value) :
  length (pairs a b) = Nat.min (length a) (length b).
Proof. unfold pairs. apply length_zip_with. Qed.

(** [zip(a, b, options)] for two arrays: the trailing bundle is taken for
    the options and the two arrays are iterated. *)
Lemma zip_two_arrays (fuel : nat) (a b : list value) (options : obj) :
  has options "strategy" = true ->
  Enum.zip fuel [Enum.AVal (VArr a); Enum.AVal (VArr b); Enum.AVal (VObj options)]
  = let strategy := get options "strategy" in
    let iterables := [of_list a; of_list b] in
    if is_str "shortest" strategy then Enum.zipShortest fuel iterables
    else if is_str "longest" strategy then
      Enum.zipLongest fuel iterables (get options "fillValue")
    else if is_str "strict" strategy then Enum.zipStrict fuel iterables
    else Some (Throw (Error (Enum.unrecognised options))).
Proof.
  intros Hhas. unfold Enum.zip.
  change [Enum.AVal (VArr a); Enum.AVal (VArr b); Enum.AVal (VObj options)]
    with ([Enum.AVal (VArr a); Enum.AVal (VArr b)] ++ [Enum.AVal (VObj options)]).
  rewrite last_snoc, slice_init. cbn [Enum.options_of]. rewrite Hhas.
  reflexivity.
Qed.

(** C4: for two finite arrays [a] and [b] and enough fuel for the longer
    one, [zip] returns [max] many tuples under [longest] (whatever the fill
    value), [min] many under [shortest], and under [strict] it throws
    exactly when the lengths differ (and returns otherwise). *)
Theorem zip_two_lengths (a b : list value) (x : value) (fuel : nat) :
  Nat.max (length a) (length b) < fuel ->
  (exists r,
     Enum.zip fuel [Enum.AVal (VArr a); Enum.AVal (VArr b);
                    Enum.AVal (VObj (with_fill "longest" x))] = Some (Ok r)
     /\ length r = Nat.max (length a) (length b))
  /\ (exists r,
        Enum.zip fuel [Enum.AVal (VArr a); Enum.AVal (VArr b);
                       Enum.AVal (VObj (strategy_only "shortest"))] = Some (Ok r)
        /\ length r = Nat.min (length a) (length b))
  /\ ((exists e,
         Enum.zip fuel [Enum.AVal (VArr a); Enum.AVal (VArr b);
                        Enum.AVal (VObj (strategy_only "strict"))] = Some (Throw e))
      <-> length a <> length b)
  /\ ((exists r,
         Enum.zip fuel [Enum.AVal (VArr a); Enum.AVal (VArr b);
                        Enum.AVal (VObj (strategy_only "strict"))] = Some (Ok r))
      <-> length a = length b).
Proof.
  intros Hfuel. rewrite !zip_two_arrays by reflexivity.
  cbn [strategy_only with_fill get is_str String.eqb Ascii.eqb Bool.eqb].
  unfold Enum.zipShortest, Enum.zipLongest, Enum.zipStrict.
  rewrite zipShortest_two, zipStrict_two by lia.
  split; [|split; [|split]].
  - destruct (zipLongest_two a b x fuel [] Hfuel) as (r & Hr & Hlen).
    exists r. by split.
  - exists (pairs a b). split; [reflexivity | apply length_pairs].
  - destruct (decide (length a = length b)) as [Heq|Hne]; split.
    + intros [e He]. discriminate He.
    + done.
    + done.
    + intros _. eauto.
  - destruct (decide (length a = length b)) as [Heq|Hne]; split.
    + done.
    + intros _. eauto.
    + intros [r Hr]. discriminate Hr.
    + done.
Qed.

Lemma zip_two_lengths_witness :
  (exists r,
     Enum.zip 5 [Enum.AVal (VArr (nums [1; 2; 3; 4]%Z)); Enum.AVal (VArr (nums [7; 8; 9]%Z));
                 Enum.AVal (VObj (with_fill "longest" (VStr "foo")))] = Some (Ok r)
     /\ length r = 4)
  /\ (exists r,
        Enum.zip 5 [Enum.AVal (VArr (nums [1; 2; 3; 4]%Z)); Enum.AVal (VArr (nums [7; 8; 9]%Z));
                    Enum.AVal (VObj (strategy_only "shortest"))] = Some (Ok r)
        /\ length r = 3)
  /\ ((exists e,
         Enum.zip 5 [Enum.AVal (VArr (nums [1; 2; 3; 4]%Z)); Enum.AVal (VArr (nums [7; 8; 9]%Z));
                     Enum.AVal (VObj (strategy_only "strict"))] = Some (Throw e))
      <-> 4 <> 3)
  /\ ((exists r,
         Enum.zip 5 [Enum.AVal (VArr (nums [1; 2; 3; 4]%Z)); Enum.AVal (VArr (nums [7; 8; 9]%Z));
                     Enum.AVal (VObj (strategy_only "strict"))] = Some (Ok r))
      <-> 4 = 3).
Proof.
  apply (zip_two_lengths (nums [1; 2; 3; 4]%Z) (nums [7; 8; 9]%Z) (VStr "foo") 5).
  cbn. lia.
Defined.

(** ** window *)

Lemma slice_from_nat {A : Type} (arr : list A) (f : nat) :
  f <= length arr -> slice_from arr (Z.of_nat f) = drop f arr.
Proof.
  intros Hf. unfold slice_from, slice, rel_index.
  destruct (Z.ltb_spec (Z.of_nat f) 0) as [?|_]; [lia|].
  destruct (Z.ltb_spec (Z.of_nat (length arr)) 0) as [?|_]; [lia|].
  replace (Z.to_nat (Z.min (Z.of_nat f) (Z.of_nat (length arr)))) with f by lia.
  apply take_ge. rewrite length_drop. lia.
Qed.

Lemma slice_to_nat {A : Type} (arr : list A) (f : nat) :
  f <= length arr -> slice arr 0 (Z.of_nat f) = take f arr.
Proof.
  intros Hf. unfold slice, rel_index.
  destruct (Z.ltb_spec (Z.of_nat f) 0) as [?|_]; [lia|].
  replace (0 <? 0)%Z with false by reflexivity.
  replace (Z.to_nat (Z.min 0 (Z.of_nat (length arr)))) with 0 by lia.
  replace (Z.to_nat (Z.min (Z.of_nat f) (Z.of_nat (length arr))) - 0) with f by lia.
  by rewrite drop_0.
Qed.

(** Overwriting the oldest slot of the ring and advancing [front] shifts
    the window by one. *)
Lemma ring_step (a b : list value) (x e : value) :
  let k := length (a ++ x :: b) in
  let front' := (length a + 1) mod k in
  drop front' (a ++ e :: b) ++ take front' (a ++ e :: b) = b ++ a ++ [e].
Proof.
  cbn zeta. rewrite length_app. cbn [length].
  destruct b as [|y b].
  - cbn [length]. replace (length a + 1) with (length a + 1 + 0) at 1 by lia.
    replace (length a + 1 + 0) with (length a + 1) by lia.
    rewrite Nat.Div0.mod_same, drop_0. cbn. by rewrite app_nil_r.
  - rewrite Nat.mod_small by (cbn [length]; lia).
    rewrite (cons_middle e a (y :: b)), app_assoc.
    rewrite drop_app_length', take_app_length' by (rewrite length_app; cbn; lia).
    reflexivity.
Qed.

Section Window.

Variable k : nat.
Hypothesis k_pos : 0 < k.

Lemma rem_front (front : nat) :
  Z.rem (Z.of_nat front + 1) (Z.of_nat k) = Z.of_nat ((front + 1) mod k).
Proof.
  rewrite Z.rem_mod_nonneg by lia.
  rewrite Nat2Z.inj_mod. f_equal. lia.
Qed.

Lemma window_loop_of_list (rest : list value) :
  forall arr front result,
    length arr = k -> front < k ->
    Enum.window_loop (Z.of_nat k) (of_list rest) arr (Z.of_nat front) result
    = Ok (result ++ slide (drop front arr ++ take front arr) rest).
Proof.
  induction rest as [|e rest IH]; intros arr front result Hlen Hfront.
  - cbn. by rewrite app_nil_r.
  - change (of_list (e :: rest)) with (CYield e (of_list rest)).
    cbn [Enum.window_loop]. rewrite Nat2Z.id, rem_front.
    assert (Hmod : (front + 1) mod k < k) by (apply Nat.mod_upper_bound; lia).
    unfold array_set. destruct (decide (front < length arr)) as [_|?]; [|lia].
    assert (Hlen' : length (<[front:=e]> arr) = k) by by rewrite length_insert.
    rewrite slice_from_nat, slice_to_nat by lia.
    rewrite IH by assumption. rewrite <- app_assoc. do 2 f_equal. cbn [slide].
    destruct (lookup_lt_is_Some_2 arr front) as [x Hx]; [lia|].
    assert (Hstep : drop ((front + 1) mod k) (<[front:=e]> arr)
                    ++ take ((front + 1) mod k) (<[front:=e]> arr)
                    = drop 1 (drop front arr ++ take front arr) ++ [e]).
    { rewrite insert_take_drop by lia.
      pose proof (ring_step (take front arr) (drop (S front) arr) x e) as Hring.
      cbn zeta in Hring.
      rewrite (take_drop_middle arr front x Hx), Hlen, length_take in Hring.
      replace (front `min` length arr) with front in Hring by lia.
      rewrite Hring.
      rewrite <- (take_drop_middle arr front x Hx) at 3.
      rewrite (drop_app_length' (take front arr) _ front)
        by (rewrite length_take; lia).
      cbn [app]. rewrite skipn_cons, drop_0. by rewrite <- app_assoc. }
    by rewrite Hstep.
Qed.

(** The windows of [w ++ rest], for a first window [w] of length [k]. *)
Lemma slide_slices (rest : list value) :
  forall w, length w = k ->
    w :: slide w rest
    = map (fun i => slice_at (w ++ rest) i k) (seq 0 (length rest + 1)).
Proof.
  induction rest as [|e rest IH]; intros w Hw.
  - cbn [slide length seq map Nat.add]. unfold slice_at.
    rewrite drop_0, app_nil_r. rewrite (take_ge w k) by lia. reflexivity.
  - cbn [slide length]. replace (S (length rest) + 1) with (S (length rest + 1)) by lia.
    cbn [seq map]. rewrite <- seq_shift, map_map.
    destruct w as [|h t]; [cbn in Hw; lia|].
    change (drop 1 (h :: t)) with t.
    rewrite IH by (cbn in *; rewrite length_app; cbn; lia).
    f_equal.
    + unfold slice_at. rewrite drop_0. by rewrite take_app_length' by done.
    + apply map_ext. intros i. unfold slice_at. cbn. by rewrite <- app_assoc.
Qed.

End Window.

Lemma window_fill_of_list (n : nat) :
  forall s arr,
    Enum.window_fill n (of_list s) arr = Ok (arr ++ take n s, of_list (drop n s)).
Proof.
  induction n as [|n IH]; intros s arr.
  - cbn. by rewrite app_nil_r.
  - destruct s as [|x s].
    + cbn. by rewrite app_nil_r.
    + change (of_list (x :: s)) with (CYield x (of_list s)).
      cbn [Enum.window_fill next bind]. rewrite IH. cbn. by rewrite <- app_assoc.
Qed.

(** The closed form of [window] on an array at least [k] long. *)
Lemma window_of_list (s : list value) (k : nat) :
  1 <= k <= length s ->
  Enum.window (of_list s) (Z.of_nat k)
  = Ok (map (fun i => slice_at s i k) (seq 0 (length s - k + 1))).
Proof.
  intros [Hk Hn]. unfold Enum.window.
  destruct (Z.eqb_spec (Z.of_nat k) 0) as [?|_]; [lia|].
  rewrite Nat2Z.id, window_fill_of_list. cbn [bind app].
  rewrite length_take.
  destruct (Z.ltb_spec (Z.of_nat (k `min` length s)) (Z.of_nat k)) as [?|_]; [lia|].
  rewrite (window_loop_of_list k Hk (drop k s) (take k s) 0) by (rewrite ?length_take; lia).
  rewrite drop_0. cbn [take]. rewrite app_nil_r. cbn [app].
  rewrite (slide_slices k Hk) by (rewrite length_take; lia).
  rewrite take_drop, length_drop. reflexivity.
Qed.

(** C5: for [1 <= k <= n], [window(s, k)] returns exactly [n - k + 1]
    windows, the [i]-th being the contiguous slice [s[i .. i+k-1]], of
    length [k]; for [n < k] it returns the empty result; [k = 0] is an
    error, for every input. *)
Theorem window_slices (s : list value) (k : Z) :
  ((1 <= k <= Z.of_nat (length s))%Z ->
   exists ws,
     Enum.window (of_list s) k = Ok ws
     /\ length ws = length s - Z.to_nat k + 1
     /\ forall i, i < length s - Z.to_nat k + 1 ->
          ws !! i = Some (slice_at s i (Z.to_nat k))
          /\ length (slice_at s i (Z.to_nat k)) = Z.to_nat k)
  /\ ((Z.of_nat (length s) < k)%Z -> Enum.window (of_list s) k = Ok [])
  /\ (forall it,
        Enum.window it 0 = Throw (Error "Cannot yield sliding windows of size 0")).
Proof.
  split; [|split].
  - intros Hk. pose proof (window_of_list s (Z.to_nat k)) as Hw.
    rewrite Z2Nat.id in Hw by lia. rewrite Hw by lia.
    eexists. split; [reflexivity|]. split.
    + by rewrite length_map, length_seq.
    + intros i Hi. split.
      * change (map ?f ?l) with (f <$> l).
        by rewrite list_lookup_fmap, lookup_seq_lt.
      * unfold slice_at. rewrite length_take, length_drop. lia.
  - intros Hk. unfold Enum.window.
    destruct (Z.eqb_spec k 0) as [?|_]; [lia|].
    rewrite window_fill_of_list. cbn [bind app].
    rewrite take_ge by lia.
    destruct (Z.ltb_spec (Z.of_nat (length s)) k) as [_|?]; [reflexivity | lia].
  - reflexivity.
Qed.

Lemma window_slices_witness :
  (exists ws,
     Enum.window (of_list (nums [1; 2; 3; 4; 5]%Z)) 3 = Ok ws
     /\ length ws = 3
     /\ forall i, i < 3 ->
          ws !! i = Some (slice_at (nums [1; 2; 3; 4; 5]%Z) i 3)
          /\ length (slice_at (nums [1; 2; 3; 4; 5]%Z) i 3) = 3)
  /\ Enum.window (of_list (nums [1; 2]%Z)) 3 = Ok [].
Proof.
  split.
  - apply (proj1 (window_slices (nums [1; 2; 3; 4; 5]%Z) 3)). cbn. lia.
  - apply (proj1 (proj2 (window_slices (nums [1; 2]%Z) 3))). cbn. lia.
Defined.

Example window_example :
  Enum.window (of_list (nums [1; 2; 3; 4; 5]%Z)) 3
  = Ok [nums [1; 2; 3]%Z; nums [2; 3; 4]%Z; nums [3; 4; 5]%Z].
Proof. reflexivity. Qed.

(** ** reduce and scan *)

Section Fold.

Variable f : reducer.

Lemma reduce_from_of_list (l : list value) :
  forall acc i, Iterator.reduce_from (of_list l) f acc i = fold_from f acc i l.
Proof.
  induction l as [|e l IH]; intros acc i; [reflexivity|].
  change (of_list (e :: l)) with (CYield e (of_list l)). cbn.
  destruct (f acc e i) as [acc'|err]; cbn; [apply IH | reflexivity].
Qed.

Lemma scan_loop_of_list (l : list value) :
  forall current i result,
    Enum.scan_loop (of_list l) f current i result
    = let* outs := running f current i l in Ok (result ++ outs).
Proof.
  induction l as [|e l IH]; intros current i result.
  - cbn. by rewrite app_nil_r.
  - change (of_list (e :: l)) with (CYield e (of_list l)). cbn.
    destruct (f current e i) as [acc|err]; cbn; [|reflexivity].
    rewrite IH. destruct (running f acc (i + 1) l) as [outs|err]; cbn; [|reflexivity].
    by rewrite <- app_assoc.
Qed.

Lemma is_undefined_ne (v : value) : v <> VUndefined -> Enum.is_undefined v = false.
Proof. by destruct v. Qed.

(** C6, for a seed other than [undefined]: [reduce(reducer)] raises on the
    empty input and otherwise folds the tail from the first element, the
    second element getting index 1; [reduce(reducer, seed)] returns the
    seed on the empty input and otherwise first combines the seed with the
    first element, at index 0. *)
Theorem reduce_seeding (x : value) (s : list value) (seed : value) :
  seed <> VUndefined ->
  (exists msg, Enum.reduce (of_list []) f (param None) = Throw (TypeError msg))
  /\ Enum.reduce (of_list (x :: s)) f (param None) = fold_from f x 1 s
  /\ Enum.reduce (of_list []) f (param (Some seed)) = Ok seed
  /\ Enum.reduce (of_list (x :: s)) f (param (Some seed))
     = (let* acc := f seed x 0%Z in fold_from f acc 1 s).
Proof.
  intros Hseed. unfold Enum.reduce. cbn [param Enum.is_undefined].
  rewrite (is_undefined_ne seed Hseed). repeat split.
  - eexists. reflexivity.
  - apply reduce_from_of_list.
  - change (of_list (x :: s)) with (CYield x (of_list s)). cbn.
    destruct (f seed x 0%Z) as [acc|err]; cbn; [|reflexivity].
    apply reduce_from_of_list.
Qed.

(** [scan] without a seed, and with one, on an array. *)
Lemma scan_unseeded (x : value) (s : list value) :
  Enum.scan (of_list (x :: s)) f VUndefined
  = (let* outs := running f x 1 s in Ok (x :: outs)).
Proof.
  unfold Enum.scan. cbn [Enum.is_undefined negb].
  change (of_list (x :: s)) with (CYield x (of_list s)). cbn [next bind].
  by rewrite scan_loop_of_list.
Qed.

Lemma scan_seeded (l : list value) (seed : value) :
  seed <> VUndefined ->
  Enum.scan (of_list l) f seed = running f seed 0 l.
Proof.
  intros Hseed. unfold Enum.scan. rewrite (is_undefined_ne seed Hseed).
  cbn [negb]. rewrite scan_loop_of_list.
  by destruct (running f seed 0 l).
Qed.

End Fold.

Lemma reduce_seeding_witness :
  (exists msg, Enum.reduce (of_list []) plus (param None) = Throw (TypeError msg))
  /\ Enum.reduce (of_list (VNum 0 :: nums [1; 2; 3; 4]%Z)) plus (param None)
     = fold_from plus (VNum 0) 1 (nums [1; 2; 3; 4]%Z)
  /\ Enum.reduce (of_list []) plus (param (Some (VStr "a"))) = Ok (VStr "a")
  /\ Enum.reduce (of_list (VNum 0 :: nums [1; 2; 3; 4]%Z)) plus
       (param (Some (VStr "a")))
     = (let* acc := plus (VStr "a") (VNum 0) 0%Z in
        fold_from plus acc 1 (nums [1; 2; 3; 4]%Z)).
Proof.
  apply (reduce_seeding plus (VNum 0) (nums [1; 2; 3; 4]%Z) (VStr "a")).
  discriminate.
Defined.

(** The tested reductions of [0, 1, 2, 3, 4]. *)
Example reduce_examples :
  Enum.reduce (of_list (nums [0; 1; 2; 3; 4]%Z)) plus (param None) = Ok (VNum 10)
  /\ Enum.reduce (of_list (nums [0; 1; 2; 3; 4]%Z)) plus (param (Some (VNum 10)))
     = Ok (VNum 20).
Proof. split; reflexivity. Qed.

(** C7, for an initial value other than [undefined]: [scan] without an
    initial value emits the first element unmodified and then the running
    accumulators of the tail, seeded with that element and indexed from 1;
    with an initial value it emits the running accumulators of the whole
    input seeded with it and indexed from 0, the seed itself not being
    emitted; the empty input gives the empty result in both modes; and the
    two documented examples hold. *)
Theorem scan_seeding (f : reducer) (x : value) (s : list value) (seed : value) :
  seed <> VUndefined ->
  Enum.scan (of_list (x :: s)) f (param None)
  = (let* outs := running f x 1 s in Ok (x :: outs))
  /\ Enum.scan (of_list (x :: s)) f (param (Some seed))
     = (let* first := f seed x 0%Z in
        let* outs := running f first 1 s in Ok (first :: outs))
  /\ Enum.scan (of_list []) f (param None) = Ok []
  /\ Enum.scan (of_list []) f (param (Some seed)) = Ok []
  /\ Enum.scan (of_list (nums [1; 2; 3; 4]%Z)) plus (param None)
     = Ok (nums [1; 3; 6; 10]%Z)
  /\ Enum.scan (of_list [VStr "foo"; VStr "bar"; VStr "baz"]) plus_length
       (param (Some (VNum 0)))
     = Ok (nums [3; 6; 9]%Z).
Proof.
  intros Hseed. cbn [param]. split; [|split; [|split; [|split; [|split]]]].
  - apply scan_unseeded.
  - by rewrite scan_seeded.
  - reflexivity.
  - by rewrite scan_seeded.
  - reflexivity.
  - reflexivity.
Qed.

Lemma scan_seeding_witness :
  Enum.scan (of_list (VStr "a" :: [VStr "b"; VStr "c"])) plus (param None)
  = (let* outs := running plus (VStr "a") 1 [VStr "b"; VStr "c"] in
     Ok (VStr "a" :: outs))
  /\ Enum.scan (of_list (VStr "a" :: [VStr "b"; VStr "c"])) plus
       (param (Some (VStr "X")))
     = (let* first := plus (VStr "X") (VStr "a") 0%Z in
        let* outs := running plus first 1 [VStr "b"; VStr "c"] in
        Ok (first :: outs))
  /\ Enum.scan (of_list []) plus (param None) = Ok []
  /\ Enum.scan (of_list []) plus (param (Some (VStr "X"))) = Ok []
  /\ Enum.scan (of_list (nums [1; 2; 3; 4]%Z)) plus (param None)
     = Ok (nums [1; 3; 6; 10]%Z)
  /\ Enum.scan (of_list [VStr "foo"; VStr "bar"; VStr "baz"]) plus_length
       (param (Some (VNum 0)))
     = Ok (nums [3; 6; 9]%Z).
Proof.
  apply (scan_seeding plus (VStr "a") [VStr "b"; VStr "c"] (VStr "X")).
  discriminate.
Defined.

(** The tested scans of ["a", "b", "c", "d"]. *)
Example scan_examples :
  Enum.scan (of_list [VStr "a"; VStr "b"; VStr "c"; VStr "d"]) plus (param None)
  = Ok [VStr "a"; VStr "ab"; VStr "abc"; VStr "abcd"]
  /\ Enum.scan (of_list [VStr "a"; VStr "b"]) plus (param (Some (VStr "X")))
     = Ok [VStr "Xa"; VStr "Xab"].
Proof. split; reflexivity. Qed.

(** C10: the seed test is [initial === undefined], so an explicit
    [undefined] is the same call as no third argument, for every input and
    callback: [reduce] of the empty input raises instead of returning
    [undefined], and [scan] emits the first element unmodified and seeds
    with it, never calling the accumulator on [undefined] as a seed. *)
Theorem undefined_is_no_seed (f : reducer) (it : cursor) (x : value)
    (s : list value) :
  Enum.reduce it f (param (Some VUndefined)) = Enum.reduce it f (param None)
  /\ Enum.scan it f (param (Some VUndefined)) = Enum.scan it f (param None)
  /\ (exists msg,
        Enum.reduce (of_list []) f (param (Some VUndefined))
        = Throw (TypeError msg))
  /\ Enum.reduce (of_list (x :: s)) f (param (Some VUndefined))
     = fold_from f x 1 s
  /\ Enum.scan (of_list (x :: s)) f (param (Some VUndefined))
     = (let* outs := running f x 1 s in Ok (x :: outs)).
Proof.
  split; [reflexivity|]. split; [reflexivity|]. split; [|split].
  - eexists. reflexivity.
  - apply reduce_from_of_list.
  - apply scan_unseeded.
Qed.

(** C6 does not hold of the seed [undefined]: [reduce([], f, undefined)]
    raises where the claim has it return the seed. *)
Lemma reduce_undefined_seed_raises :
  Enum.reduce (of_list []) plus (param (Some VUndefined)) <> Ok VUndefined
  /\ raises (Enum.reduce (of_list []) plus (param (Some VUndefined))).
Proof.
  split; [discriminate|]. eexists. reflexivity.
Qed.

(** C7 does not hold of the initial value [undefined]: with the accumulator
    [() => 0], [scan([1, 2], acc, undefined)] returns [[1, 0]], its first
    output being the first element and not [acc(undefined, 1, 0)]. *)
Lemma scan_undefined_seed_emits_first :
  Enum.scan (of_list (nums [1; 2]%Z)) (fun _ _ _ => Ok (VNum 0))
    (param (Some VUndefined))
  = Ok (nums [1; 0]%Z)
  /\ Enum.scan (of_list (nums [1; 2]%Z)) (fun _ _ _ => Ok (VNum 0))
       (param (Some VUndefined))
     <> (let* first := (fun _ _ _ => Ok (VNum 0)) VUndefined (VNum 1) 0%Z in
         let* outs := running (fun _ _ _ => Ok (VNum 0)) first 1 (nums [2]%Z) in
         Ok (first :: outs)).
Proof.
  split; [reflexivity | discriminate].
Qed.

(** ** Short-circuiting *)

Section ShortCircuit.

Variable p : predicate.

Lemma decided_from_0 (c : Z) (xs : list value) (b : bool) :
  decided_from p c xs 0 b ->
  exists v xs', xs = v :: xs' /\ p v c = Ok b.
Proof.
  intros [(v & Hv & Hp) _]. destruct xs as [|v' xs']; [discriminate|].
  cbn in Hv. injection Hv as ->. exists v, xs'. split; [reflexivity|].
  by rewrite Z.add_0_r in Hp.
Qed.

Lemma decided_from_S (c : Z) (xs : list value) (k : nat) (b : bool) :
  decided_from p c xs (S k) b ->
  exists v xs',
    xs = v :: xs' /\ p v c = Ok (negb b) /\ decided_from p (c + 1) xs' k b.
Proof.
  intros [(v & Hv & Hp) Hbefore]. destruct xs as [|v' xs']; [discriminate|].
  exists v', xs'. split; [reflexivity|]. split.
  - specialize (Hbefore 0 v' ltac:(lia) eq_refl).
    by rewrite Z.add_0_r in Hbefore.
  - split.
    + exists v. split; [exact Hv|].
      replace (c + 1 + Z.of_nat k)%Z with (c + Z.of_nat (S k))%Z by lia.
      exact Hp.
    + intros j w Hj Hw.
      replace (c + 1 + Z.of_nat j)%Z with (c + Z.of_nat (S j))%Z by lia.
      apply Hbefore; [lia | exact Hw].
Qed.

(** Peel the elements before the deciding one off the cursor. *)
Ltac peel IH H :=
  destruct (decided_from_S _ _ _ _ H) as (v & xs' & -> & Hv & Hrest);
  cbn [yield_all]; cbn; rewrite Hv; cbn; try (eapply IH; eassumption).

Ltac hit H :=
  destruct (decided_from_0 _ _ _ H) as (v & xs' & -> & Hv);
  cbn [yield_all]; cbn; rewrite Hv; cbn.

Variable tail : cursor.

Lemma every_decided (k : nat) :
  forall xs c, decided_from p c xs k false ->
    Iterator.every (yield_all xs tail) p c = Ok false.
Proof.
  induction k as [|k IH]; intros xs c H; [hit H | peel IH H]; reflexivity.
Qed.

Lemma some_decided (k : nat) :
  forall xs c, decided_from p c xs k true ->
    Iterator.some (yield_all xs tail) p c = Ok true.
Proof.
  induction k as [|k IH]; intros xs c H; [hit H | peel IH H]; reflexivity.
Qed.

Lemma find_decided (k : nat) :
  forall xs c, decided_from p c xs k true ->
    exists v, xs !! k = Some v /\ Iterator.find (yield_all xs tail) p c = Ok v.
Proof.
  induction k as [|k IH]; intros xs c H.
  - hit H. by exists v.
  - peel IH H.
Qed.

Lemma findIndex_decided (k : nat) :
  forall xs c, decided_from p c xs k true ->
    Enum.findIndex_loop (yield_all xs tail) p c = Ok (c + Z.of_nat k)%Z.
Proof.
  induction k as [|k IH]; intros xs c H.
  - hit H. by rewrite Z.add_0_r.
  - peel IH H. rewrite (IH _ _ Hrest). f_equal. lia.
Qed.

Lemma takeWhile_decided (k : nat) :
  forall xs c result, decided_from p c xs k false ->
    Enum.takeWhile_loop (yield_all xs tail) p c result = Ok (result ++ take k xs).
Proof.
  induction k as [|k IH]; intros xs c result H.
  - hit H. by rewrite app_nil_r.
  - peel IH H. rewrite (IH _ _ _ Hrest). by rewrite <- app_assoc.
Qed.

Lemma take_from_prefix (n : nat) :
  forall xs, n <= length xs ->
    Iterator.take_from n (yield_all xs tail) = Ok (take n xs).
Proof.
  induction n as [|n IH]; intros xs Hn; [reflexivity|].
  destruct xs as [|x xs]; [cbn in Hn; lia|].
  cbn [yield_all Iterator.take_from next bind].
  rewrite IH by (cbn in Hn; lia). reflexivity.
Qed.

End ShortCircuit.

(** A cursor that raises after its elements does raise when drained. *)
Lemma spread_raises (xs : list value) (e : error) :
  spread (yield_all xs (CRaise e)) = Throw e.
Proof. induction xs as [|x xs IH]; cbn; [reflexivity | by rewrite IH]. Qed.

(** C8: on the cursor that yields [xs] and raises [e] when pulled once
    more, no error is raised when the outcome is decided within [xs]:
    [all] answers false and [takeWhile] returns the prefix before the first
    failing element; [any] answers true, [find] returns the first
    satisfying element and [findIndex] its position; [take] returns the
    first [limit] elements for a limit up to the length of [xs]. *)
Theorem short_circuit (p : predicate) (xs : list value) (e : error)
    (k : nat) (limit : Z) :
  (decided_at p xs k false ->
     Enum.all (yield_all xs (CRaise e)) p = Ok false
     /\ Enum.takeWhile (yield_all xs (CRaise e)) p = Ok (firstn k xs))
  /\ (decided_at p xs k true ->
        Enum.any (yield_all xs (CRaise e)) p = Ok true
        /\ (exists v, xs !! k = Some v
                      /\ Enum.find (yield_all xs (CRaise e)) p = Ok v)
        /\ Enum.findIndex (yield_all xs (CRaise e)) p = Ok (Z.of_nat k))
  /\ ((0 <= limit <= Z.of_nat (length xs))%Z ->
        Enum.take (yield_all xs (CRaise e)) limit
        = Ok (firstn (Z.to_nat limit) xs)).
Proof.
  split; [|split].
  - intros H. split.
    + by apply every_decided with k.
    + unfold Enum.takeWhile. by rewrite takeWhile_decided with (k := k).
  - intros H. split; [|split].
    + by apply some_decided with k.
    + by apply find_decided.
    + unfold Enum.findIndex. by rewrite findIndex_decided with (k := k).
  - intros Hlimit. unfold Enum.take, Iterator.take.
    destruct (Z.ltb_spec limit 0) as [?|_]; [lia|].
    apply take_from_prefix. lia.
Qed.

Lemma decided_is_num : decided_at (is_num 3) (nums [1; 2; 3]%Z) 2 true.
Proof.
  split.
  - exists (VNum 3). split; reflexivity.
  - intros [|[|j]] v Hj Hv; [| |lia]; cbn in Hv; injection Hv as <-; reflexivity.
Defined.

Lemma decided_is_not_num : decided_at (is_not_num 3) (nums [1; 2; 3]%Z) 2 false.
Proof.
  split.
  - exists (VNum 3). split; reflexivity.
  - intros [|[|j]] v Hj Hv; [| |lia]; cbn in Hv; injection Hv as <-; reflexivity.
Defined.

Lemma short_circuit_witness :
  (Enum.all (temperamentalIter (nums [1; 2; 3]%Z)) (is_not_num 3) = Ok false
   /\ Enum.takeWhile (temperamentalIter (nums [1; 2; 3]%Z)) (is_not_num 3)
      = Ok (nums [1; 2]%Z))
  /\ (Enum.any (temperamentalIter (nums [1; 2; 3]%Z)) (is_num 3) = Ok true
      /\ (exists v, nums [1; 2; 3]%Z !! 2 = Some v
                    /\ Enum.find (temperamentalIter (nums [1; 2; 3]%Z)) (is_num 3)
                       = Ok v)
      /\ Enum.findIndex (temperamentalIter (nums [1; 2; 3]%Z)) (is_num 3) = Ok 2%Z)
  /\ Enum.take (temperamentalIter (nums [1; 2; 3]%Z)) 3 = Ok (nums [1; 2; 3]%Z).
Proof.
  split; [|split].
  - exact (proj1 (short_circuit (is_not_num 3) (nums [1; 2; 3]%Z) (Error "Bang!") 2 3)
             decided_is_not_num).
  - exact (proj1 (proj2 (short_circuit (is_num 3) (nums [1; 2; 3]%Z) (Error "Bang!") 2 3))
             decided_is_num).
  - apply (proj2 (proj2 (short_circuit (is_num 3) (nums [1; 2; 3]%Z) (Error "Bang!") 2 3))).
    cbn. lia.
Defined.

(** Pulled once more, the same cursor raises: the tested "take is lazy". *)
Example take_past_the_end :
  Enum.take (temperamentalIter (nums [1; 2; 3]%Z)) 4 = Throw (Error "Bang!").
Proof. reflexivity. Qed.

(** * Further properties of [main.js] *)

(** ** Draining a cursor *)

Lemma spread_yield_all (xs : list value) (tail : cursor) :
  spread (yield_all xs tail) = (let* l := spread tail in Ok (xs ++ l)).
Proof.
  induction xs as [|x xs IH]; cbn.
  - by destruct (spread tail).
  - rewrite IH. by destruct (spread tail).
Qed.

Lemma spread_of_list (l : list value) : spread (of_list l) = Ok l.
Proof. unfold of_list. rewrite spread_yield_all. cbn. by rewrite app_nil_r. Qed.

(** ** chain *)

Lemma chain_loop_arrays (ls : list (list value)) :
  forall result,
    Enum.chain_loop (List.map of_list ls) result = Ok (result ++ concat ls).
Proof.
  induction ls as [|l ls IH]; intros result; cbn.
  - by rewrite app_nil_r.
  - rewrite spread_of_list. cbn. rewrite IH. by rewrite <- app_assoc.
Qed.

(** X1: [chain] of arrays is their concatenation, in argument order; of no
    arrays, the empty array. *)
Theorem chain_concat (ls : list (list value)) :
  Enum.chain (List.map of_list ls) = Ok (concat ls).
Proof. unfold Enum.chain. by rewrite chain_loop_arrays. Qed.

(** ** all and any *)

Lemma every_some_dual (q : value -> Z -> bool) (it : cursor) :
  forall c,
    Iterator.every it (pure_pred q) c
    = (let* b := Iterator.some it (pure_pred (fun v i => negb (q v i))) c in
       Ok (negb b)).
Proof.
  induction it as [| |v rest IH]; intros c; cbn; try reflexivity.
  destruct (q v c); cbn; [apply IH | reflexivity].
Qed.

(** X2: for a predicate that does not throw, [all(s, p)] is
    [!any(s, (e, i) => !p(e, i))] on every input, one that raises included:
    both stop, or raise, at the same element. *)
Theorem all_any_dual (q : value -> Z -> bool) (it : cursor) :
  Enum.all it (pure_pred q)
  = (let* b := Enum.any it (pure_pred (fun v i => negb (q v i))) in
     Ok (negb b)).
Proof. apply every_some_dual. Qed.

(** ** find and findIndex *)

Lemma findIndex_find_from (q : value -> Z -> bool) (s : list value) :
  forall c,
    (Enum.findIndex_loop (of_list s) (pure_pred q) c = Ok (-1)%Z
     /\ Iterator.find (of_list s) (pure_pred q) c = Ok VUndefined
     /\ forall k v, s !! k = Some v -> q v (c + Z.of_nat k)%Z = false)
    \/ (exists k v,
          Enum.findIndex_loop (of_list s) (pure_pred q) c = Ok (c + Z.of_nat k)%Z
          /\ Iterator.find (of_list s) (pure_pred q) c = Ok v
          /\ s !! k = Some v
          /\ q v (c + Z.of_nat k)%Z = true
          /\ forall j w, j < k -> s !! j = Some w ->
               q w (c + Z.of_nat j)%Z = false).
Proof.
  induction s as [|x s IH]; intros c.
  - left. repeat split. intros k v Hk. discriminate Hk.
  - change (of_list (x :: s)) with (CYield x (of_list s)). cbn.
    destruct (q x c) eqn:Hq.
    + right. exists 0, x. rewrite Z.add_0_r. repeat split; [exact Hq|].
      intros j w Hj. lia.
    + destruct (IH (c + 1)%Z) as [(Hi & Hf & Hall)|(k & v & Hi & Hf & Hk & Hqv & Hbefore)].
      * left. repeat split; [exact Hi | exact Hf |].
        intros [|k] v Hk.
        -- injection Hk as <-. by rewrite Z.add_0_r.
        -- replace (c + Z.of_nat (S k))%Z with (c + 1 + Z.of_nat k)%Z by lia.
           by apply Hall.
      * right. exists (S k), v.
        replace (c + Z.of_nat (S k))%Z with (c + 1 + Z.of_nat k)%Z by lia.
        repeat split; [exact Hi | exact Hf | exact Hk | exact Hqv |].
        intros [|j] w Hj Hw.
        -- injection Hw as <-. by rewrite Z.add_0_r.
        -- replace (c + Z.of_nat (S j))%Z with (c + 1 + Z.of_nat j)%Z by lia.
           apply Hbefore; [lia | exact Hw].
Qed.

(** X3: on an array and for a predicate that does not throw, [findIndex]
    and [find] agree: either [findIndex] is [-1], [find] is [undefined] and
    no element satisfies the predicate, or [findIndex] is the position of
    the first element that satisfies it and [find] is that element. *)
Theorem find_findIndex_agree (q : value -> Z -> bool) (s : list value) :
  (Enum.findIndex (of_list s) (pure_pred q) = Ok (-1)%Z
   /\ Enum.find (of_list s) (pure_pred q) = Ok VUndefined
   /\ forall k v, s !! k = Some v -> q v (Z.of_nat k) = false)
  \/ (exists k v,
        Enum.findIndex (of_list s) (pure_pred q) = Ok (Z.of_nat k)
        /\ Enum.find (of_list s) (pure_pred q) = Ok v
        /\ s !! k = Some v
        /\ q v (Z.of_nat k) = true
        /\ forall j w, j < k -> s !! j = Some w -> q w (Z.of_nat j) = false).
Proof. exact (findIndex_find_from q s 0). Qed.

(** ** take and drop *)

Lemma take_from_of_list (n : nat) :
  forall s, Iterator.take_from n (of_list s) = Ok (firstn n s).
Proof.
  induction n as [|n IH]; intros s; [reflexivity|].
  destruct s as [|x s]; [reflexivity|].
  change (of_list (x :: s)) with (CYield x (of_list s)).
  cbn [Iterator.take_from next bind]. by rewrite IH.
Qed.

Lemma drop_loop_of_list (n : nat) :
  forall s, Enum.drop_loop n (of_list s) = Ok (of_list (skipn n s)).
Proof.
  induction n as [|n IH]; intros s; [reflexivity|].
  destruct s as [|x s].
  - change (Enum.drop_loop (S n) (of_list [])) with (Enum.drop_loop n (of_list [])).
    rewrite IH. by rewrite !drop_nil.
  - apply IH.
Qed.

Lemma drop_of_list (s : list value) (limit : Z) :
  Enum.drop (of_list s) limit = Ok (skipn (Z.to_nat limit) s).
Proof.
  unfold Enum.drop. rewrite drop_loop_of_list. cbn. apply spread_of_list.
Qed.

(** X4: for a limit [n >= 0], [take(s, n)] followed by [drop(s, n)] is [s];
    [take] returns [min(n, len(s))] elements, so all of [s] when [n] exceeds
    its length, and [drop] then returns nothing. *)
Theorem take_drop_partition (s : list value) (n : Z) :
  (0 <= n)%Z ->
  exists t d,
    Enum.take (of_list s) n = Ok t
    /\ Enum.drop (of_list s) n = Ok d
    /\ t ++ d = s
    /\ length t = Nat.min (Z.to_nat n) (length s).
Proof.
  intros Hn. exists (firstn (Z.to_nat n) s), (skipn (Z.to_nat n) s).
  split; [|split; [|split]].
  - unfold Enum.take, Iterator.take.
    destruct (Z.ltb_spec n 0) as [?|_]; [lia|]. apply take_from_of_list.
  - apply drop_of_list.
  - apply firstn_skipn.
  - apply length_take.
Qed.

Lemma take_drop_partition_witness :
  exists t d,
    Enum.take (of_list (nums [1; 2; 3]%Z)) 2 = Ok t
    /\ Enum.drop (of_list (nums [1; 2; 3]%Z)) 2 = Ok d
    /\ t ++ d = nums [1; 2; 3]%Z
    /\ length t = Nat.min (Z.to_nat 2) (length (nums [1; 2; 3]%Z)).
Proof. apply (take_drop_partition (nums [1; 2; 3]%Z) 2). lia. Defined.

(** X5: a negative limit is an error for [take], raised before the input is
    pulled (whatever the input), and is no error for [drop], which returns
    the whole array. *)
Theorem negative_limit (it : cursor) (s : list value) (n : Z) :
  (n < 0)%Z ->
  (exists msg, Enum.take it n = Throw (RangeError msg))
  /\ Enum.drop (of_list s) n = Ok s.
Proof.
  intros Hn. split.
  - unfold Enum.take, Iterator.take.
    destruct (Z.ltb_spec n 0) as [_|?]; [|lia]. eexists. reflexivity.
  - rewrite drop_of_list. by replace (Z.to_nat n) with 0 by lia.
Qed.

Lemma negative_limit_witness :
  (exists msg,
     Enum.take (temperamentalIter (nums [1; 2]%Z)) (-1) = Throw (RangeError msg))
  /\ Enum.drop (of_list (nums [1; 2]%Z)) (-1) = Ok (nums [1; 2]%Z).
Proof.
  apply (negative_limit (temperamentalIter (nums [1; 2]%Z)) (nums [1; 2]%Z) (-1)).
  lia.
Defined.

(** ** takeWhile and dropWhile *)

Section While.

Variable q : value -> Z -> bool.

Lemma takeWhile_loop_of_list (s : list value) :
  forall c result,
    Enum.takeWhile_loop (of_list s) (pure_pred q) c result
    = Ok (result ++ prefix_while q c s).
Proof.
  induction s as [|x s IH]; intros c result; cbn.
  - by rewrite app_nil_r.
  - destruct (q x c); cbn.
    + rewrite IH. by rewrite <- app_assoc.
    + by rewrite app_nil_r.
Qed.

Lemma dropWhile_loop_of_list (s : list value) :
  forall c, Enum.dropWhile_loop (of_list s) (pure_pred q) c = Ok (suffix_after q c s).
Proof.
  induction s as [|x s IH]; intros c; cbn; [reflexivity|].
  destruct (q x c); cbn; [apply IH|].
  change (spread (yield_all s CDone)) with (spread (of_list s)).
  by rewrite spread_of_list.
Qed.

Lemma prefix_suffix (s : list value) :
  forall c, prefix_while q c s ++ suffix_after q c s = s.
Proof.
  induction s as [|x s IH]; intros c; cbn; [reflexivity|].
  destruct (q x c); cbn; [by rewrite IH | reflexivity].
Qed.

Lemma prefix_while_holds (s : list value) :
  forall c k v,
    prefix_while q c s !! k = Some v -> q v (c + Z.of_nat k)%Z = true.
Proof.
  induction s as [|x s IH]; intros c k v; cbn; [discriminate|].
  destruct (q x c) eqn:Hq; [|discriminate].
  destruct k as [|k]; cbn.
  - intros [= <-]. by rewrite Z.add_0_r.
  - intros Hk. replace (c + Z.of_nat (S k))%Z with (c + 1 + Z.of_nat k)%Z by lia.
    by apply IH.
Qed.

Lemma suffix_after_fails (s : list value) :
  forall c v,
    suffix_after q c s !! 0 = Some v ->
    q v (c + Z.of_nat (length (prefix_while q c s)))%Z = false.
Proof.
  induction s as [|x s IH]; intros c v; cbn; [discriminate|].
  destruct (q x c) eqn:Hq; cbn.
  - intros Hv. replace (c + Z.of_nat (S (length (prefix_while q (c + 1) s))))%Z
      with (c + 1 + Z.of_nat (length (prefix_while q (c + 1) s)))%Z by lia.
    by apply IH.
  - intros [= <-]. by rewrite Z.add_0_r.
Qed.

End While.

(** X6: for a predicate that does not throw, [takeWhile(s, p)] followed by
    [dropWhile(s, p)] is [s]; every element taken satisfies the predicate
    at its index, and the first element of the rest, if any, fails it. *)
Theorem takeWhile_dropWhile_partition (q : value -> Z -> bool) (s : list value) :
  exists t d,
    Enum.takeWhile (of_list s) (pure_pred q) = Ok t
    /\ Enum.dropWhile (of_list s) (pure_pred q) = Ok d
    /\ t ++ d = s
    /\ (forall k v, t !! k = Some v -> q v (Z.of_nat k) = true)
    /\ (forall v, d !! 0 = Some v -> q v (Z.of_nat (length t)) = false).
Proof.
  exists (prefix_while q 0 s), (suffix_after q 0 s).
  split; [|split; [|split; [|split]]].
  - unfold Enum.takeWhile. by rewrite takeWhile_loop_of_list.
  - apply dropWhile_loop_of_list.
  - apply prefix_suffix.
  - intros k v Hk. by apply (prefix_while_holds q s 0 k v).
  - intros v Hv. by apply (suffix_after_fails q s 0 v).
Qed.

(** ** filter and map *)

Lemma filter_from_of_list (q : value -> Z -> bool) (s : list value) :
  forall c,
    Iterator.filter_from (of_list s) (pure_pred q) c = Ok (filter_indexed q c s).
Proof.
  induction s as [|x s IH]; intros c; cbn; [reflexivity|].
  rewrite IH. cbn. by destruct (q x c).
Qed.

Lemma filter_indexed_plain (q : value -> bool) (s : list value) :
  forall c, filter_indexed (fun v _ => q v) c s = List.filter q s.
Proof.
  induction s as [|x s IH]; intros c; cbn; [reflexivity|].
  rewrite IH. reflexivity.
Qed.

Lemma every_of_list_true (q : value -> bool) (l : list value) :
  forall c,
    (forall v, In v l -> q v = true) ->
    Iterator.every (of_list l) (pure_pred (fun v _ => q v)) c = Ok true.
Proof.
  induction l as [|x l IH]; intros c Hall; cbn; [reflexivity|].
  rewrite (Hall x) by (by left). cbn. apply IH. intros v Hv. apply Hall. by right.
Qed.

(** X7: for a predicate of the element alone that does not throw, [filter]
    on an array keeps exactly the elements that satisfy it, in their order;
    [all] then holds of the result, and filtering it again changes
    nothing. *)
Theorem filter_keeps_satisfying (q : value -> bool) (s : list value) :
  Enum.filter (of_list s) (pure_pred (fun v _ => q v)) = Ok (List.filter q s)
  /\ Enum.all (of_list (List.filter q s)) (pure_pred (fun v _ => q v)) = Ok true
  /\ Enum.filter (of_list (List.filter q s)) (pure_pred (fun v _ => q v))
     = Ok (List.filter q s).
Proof.
  assert (Hfilter : forall l,
            Enum.filter (of_list l) (pure_pred (fun v _ => q v))
            = Ok (List.filter q l)).
  { intros l. unfold Enum.filter.
    by rewrite filter_from_of_list, filter_indexed_plain. }
  split; [apply Hfilter|]. split.
  - apply every_of_list_true. intros v Hv. by apply filter_In in Hv as [_ ?].
  - rewrite Hfilter. f_equal.
    induction s as [|x s IH]; cbn; [reflexivity|].
    destruct (q x) eqn:Hq; cbn; [rewrite Hq; by rewrite IH | exact IH].
Qed.

Lemma map_from_of_list (g : value -> Z -> value) (s : list value) :
  forall c, Iterator.map_from (of_list s) (pure_map g) c = Ok (map_indexed g c s).
Proof.
  induction s as [|x s IH]; intros c; cbn; [reflexivity|].
  by rewrite IH.
Qed.

Lemma length_map_indexed (g : value -> Z -> value) (s : list value) :
  forall c, length (map_indexed g c s) = length s.
Proof. induction s as [|x s IH]; intros c; cbn; [reflexivity | by rewrite IH]. Qed.

Lemma lookup_map_indexed (g : value -> Z -> value) (s : list value) :
  forall c k v,
    s !! k = Some v -> map_indexed g c s !! k = Some (g v (c + Z.of_nat k)%Z).
Proof.
  induction s as [|x s IH]; intros c k v; [discriminate|].
  destruct k as [|k]; cbn.
  - intros [= <-]. by rewrite Z.add_0_r.
  - intros Hk. replace (c + Z.of_nat (S k))%Z with (c + 1 + Z.of_nat k)%Z by lia.
    by apply IH.
Qed.

(** X8: for a mapping that does not throw, [map] on an array returns an
    array of the same length whose element at each position [k] is the
    image of the input's element at [k], the mapping having been given
    that element and [k]. *)
Theorem map_pointwise (g : value -> Z -> value) (s : list value) :
  exists r,
    Enum.map (of_list s) (pure_map g) = Ok r
    /\ length r = length s
    /\ forall k v, s !! k = Some v -> r !! k = Some (g v (Z.of_nat k)).
Proof.
  exists (map_indexed g 0 s). split; [|split].
  - apply map_from_of_list.
  - apply length_map_indexed.
  - intros k v Hk. by apply (lookup_map_indexed g s 0 k v).
Qed.

Lemma map_indexed_compose (g h : value -> Z -> value) (s : list value) :
  forall c,
    map_indexed h c (map_indexed g c s)
    = map_indexed (fun v i => h (g v i) i) c s.
Proof. induction s as [|x s IH]; intros c; cbn; [reflexivity | by rewrite IH]. Qed.

(** X9: two [map]s in a row are one [map] with the composed mapping, both
    mappings seeing the same index: [map(map(s, g), h)] is
    [map(s, (e, i) => h(g(e, i), i))]. *)
Theorem map_fusion (g h : value -> Z -> value) (s r : list value) :
  Enum.map (of_list s) (pure_map g) = Ok r ->
  Enum.map (of_list r) (pure_map h)
  = Enum.map (of_list s) (pure_map (fun v i => h (g v i) i)).
Proof.
  unfold Enum.map. rewrite !map_from_of_list. intros [= <-].
  by rewrite map_indexed_compose.
Qed.

Lemma map_fusion_witness :
  Enum.map (of_list (nums [2; 3]%Z)) (pure_map plus_index)
  = Enum.map (of_list (nums [1; 2]%Z))
      (pure_map (fun v i => plus_index (succ_num v i) i)).
Proof.
  apply (map_fusion succ_num plus_index (nums [1; 2]%Z) (nums [2; 3]%Z)).
  reflexivity.
Defined.

(** ** flatMap, forEach, length *)

Lemma flatMap_loop_arrays (g : value -> Z -> list value) (s : list value) :
  forall c result,
    Enum.flatMap_loop (of_list s) (fun e i => Ok (of_list (g e i))) c result
    = Ok (result ++ concat (List.map (fun ei => g (fst ei) (snd ei)) (indexed c s))).
Proof.
  induction s as [|x s IH]; intros c result; cbn.
  - by rewrite app_nil_r.
  - rewrite spread_of_list. cbn. rewrite IH. by rewrite <- app_assoc.
Qed.

(** X10: for a mapping that returns arrays, [flatMap] on an array is the
    concatenation, in order, of the arrays returned for each element and
    its index; an empty array contributes nothing; and with a mapping to
    one-element arrays it is [map]. *)
Theorem flatMap_concat (g : value -> Z -> list value) (h : value -> Z -> value)
    (s : list value) :
  Enum.flatMap (of_list s) (fun e i => Ok (of_list (g e i)))
  = Ok (concat (List.map (fun ei => g (fst ei) (snd ei)) (indexed 0 s)))
  /\ Enum.flatMap (of_list s) (fun e i => Ok (of_list [h e i]))
     = Enum.map (of_list s) (pure_map h).
Proof.
  unfold Enum.flatMap. rewrite !flatMap_loop_arrays. split; [reflexivity|].
  unfold Enum.map. rewrite map_from_of_list. cbn [app]. f_equal.
  generalize 0%Z. induction s as [|x s IH]; intros c; cbn; [reflexivity|].
  by rewrite IH.
Qed.

Lemma forEach_loop_record (s : list value) :
  forall c log,
    Enum.forEach_loop (of_list s) record_call c log = Ok (log ++ indexed c s).
Proof.
  induction s as [|x s IH]; intros c log; cbn.
  - by rewrite app_nil_r.
  - rewrite IH. by rewrite <- app_assoc.
Qed.

Lemma length_indexed (s : list value) :
  forall c, length (indexed c s) = length s.
Proof. induction s as [|x s IH]; intros c; cbn; [reflexivity | by rewrite IH]. Qed.

Lemma lookup_indexed (s : list value) :
  forall c k v,
    s !! k = Some v -> indexed c s !! k = Some (v, (c + Z.of_nat k)%Z).
Proof.
  induction s as [|x s IH]; intros c k v; [discriminate|].
  destruct k as [|k]; cbn.
  - intros [= <-]. by rewrite Z.add_0_r.
  - intros Hk. replace (c + Z.of_nat (S k))%Z with (c + 1 + Z.of_nat k)%Z by lia.
    by apply IH.
Qed.

(** X11: [forEach] calls its consumer once for each element of an array, in
    order, with the element and its position: a consumer that records its
    arguments ends with as many records as elements, the [k]-th being the
    [k]-th element paired with [k]. *)
Theorem forEach_calls (s : list value) :
  exists log,
    Enum.forEach (of_list s) record_call [] = Ok log
    /\ length log = length s
    /\ forall k v, s !! k = Some v -> log !! k = Some (v, Z.of_nat k).
Proof.
  exists (indexed 0 s). split; [|split].
  - unfold Enum.forEach. by rewrite forEach_loop_record.
  - apply length_indexed.
  - intros k v Hk. by apply (lookup_indexed s 0 k v).
Qed.

Lemma length_loop_yield_all (xs : list value) (tail : cursor) :
  forall count,
    Enum.length_loop (yield_all xs tail) count
    = Enum.length_loop tail (count + Z.of_nat (length xs)).
Proof.
  induction xs as [|x xs IH]; intros count; cbn [yield_all Enum.length_loop length].
  - by rewrite Z.add_0_r.
  - rewrite IH. f_equal. lia.
Qed.

(** X12: [length] of a chain of arrays is the sum of their lengths; in
    particular [length] of an array is its number of elements. *)
Theorem length_chain (ls : list (list value)) :
  exists l,
    Enum.chain (List.map of_list ls) = Ok l
    /\ Enum.length (of_list l)
       = Ok (Z.of_nat (list_sum (List.map (@length value) ls))).
Proof.
  exists (concat ls). split; [unfold Enum.chain; by rewrite chain_loop_arrays|].
  unfold Enum.length, of_list. rewrite length_loop_yield_all. cbn. f_equal.
  induction ls as [|l ls IH]; cbn [concat List.map list_sum foldr]; [reflexivity|].
  rewrite length_app. unfold list_sum in IH. lia.
Qed.

(** ** repeat and reverse *)

Lemma repeat_loop_replicate (n : nat) (object : value) :
  forall result,
    Enum.repeat_loop n object result = result ++ replicate n object.
Proof.
  induction n as [|n IH]; intros result; cbn.
  - by rewrite app_nil_r.
  - rewrite IH. by rewrite <- app_assoc.
Qed.

(** X13: [repeat(object, times)] has [times] elements, each of them
    [object]; for [times <= 0] it is empty, and no error is raised. *)
Theorem repeat_elements (object : value) (times : Z) :
  length (Enum.repeat object times) = Z.to_nat times
  /\ (forall v, In v (Enum.repeat object times) -> v = object)
  /\ ((times <= 0)%Z -> Enum.repeat object times = []).
Proof.
  unfold Enum.repeat. rewrite repeat_loop_replicate. cbn [app].
  split; [apply length_replicate|]. split.
  - intros v Hv. apply list_elem_of_In in Hv.
    by apply elem_of_replicate in Hv as [-> _].
  - intros Ht. by replace (Z.to_nat times) with 0 by lia.
Qed.

Lemma repeat_elements_witness :
  length (Enum.repeat (VStr "a") 4) = Z.to_nat 4
  /\ (forall v, In v (Enum.repeat (VStr "a") 4) -> v = VStr "a")
  /\ ((4 <= 0)%Z -> Enum.repeat (VStr "a") 4 = []).
Proof. apply (repeat_elements (VStr "a") 4). Defined.

Lemma reverse_of_list (s : list value) : Enum.reverse (of_list s) = Ok (rev s).
Proof. unfold Enum.reverse. by rewrite spread_of_list. Qed.

(** X14: [reverse] of an array is the array read backwards, and reversing
    the result gives the array back. *)
Theorem reverse_involutive (s : list value) :
  exists r,
    Enum.reverse (of_list s) = Ok r
    /\ length r = length s
    /\ (forall k v, s !! k = Some v -> r !! (length s - S k) = Some v)
    /\ Enum.reverse (of_list r) = Ok s.
Proof.
  exists (rev s). split; [apply reverse_of_list|]. split; [apply length_rev|]. split.
  - intros k v Hk. pose proof (lookup_lt_Some _ _ _ Hk) as Hlt.
    rewrite rev_alt. change (rev_append s []) with (reverse s).
    rewrite reverse_lookup by lia.
    by replace (length s - S (length s - S k)) with k by lia.
  - by rewrite reverse_of_list, rev_involutive.
Qed.

(** ** dedup *)

Section Dedup.

Variable r : value -> value -> bool.

Lemma at_last_snoc (l : list value) (x : value) : Enum.at_last (l ++ [x]) = x.
Proof. unfold Enum.at_last. by rewrite last_snoc. Qed.

Lemma dedup_loop_of_list (s : list value) :
  forall pre x,
    Enum.dedup_loop (of_list s) (pure_eq r) (pre ++ [x])
    = Ok (pre ++ x :: dedup_from r x s).
Proof.
  induction s as [|e s IH]; intros pre x.
  - reflexivity.
  - change (of_list (e :: s)) with (CYield e (of_list s)).
    cbn [Enum.dedup_loop]. rewrite at_last_snoc. cbn [pure_eq bind dedup_from].
    destruct (r x e); cbn [negb].
    + apply IH.
    + rewrite IH. by rewrite <- app_assoc.
Qed.

Lemma dedup_of_list (x : value) (s : list value) :
  Enum.dedup (of_list (x :: s)) (pure_eq r) = Ok (x :: dedup_from r x s).
Proof. apply (dedup_loop_of_list s [] x). Qed.

Lemma no_adjacent_dedup_from (s : list value) :
  forall x, no_adjacent r (x :: dedup_from r x s).
Proof.
  induction s as [|e s IH]; intros x; [exact I|].
  cbn [dedup_from]. destruct (r x e) eqn:Hr; [apply IH|].
  split; [exact Hr | apply IH].
Qed.

Lemma sublist_dedup_from (s : list value) :
  forall x, sublist (dedup_from r x s) s.
Proof.
  induction s as [|e s IH]; intros x; cbn; [constructor|].
  destruct (r x e); [apply sublist_cons | apply sublist_skip]; apply IH.
Qed.

Lemma dedup_from_idempotent (s : list value) :
  forall x, dedup_from r x (dedup_from r x s) = dedup_from r x s.
Proof.
  induction s as [|e s IH]; intros x; cbn; [reflexivity|].
  destruct (r x e) eqn:Hr; [apply IH|].
  cbn. rewrite Hr. by rewrite IH.
Qed.

End Dedup.

(** X15: for a comparison that does not throw, [dedup] on an array returns
    a subsequence of it (elements are only passed over, never added or
    reordered) that starts with the same element and in which no two
    neighbours are equal under the comparison; the empty array gives the
    empty array. *)
Theorem dedup_no_adjacent (r : value -> value -> bool) (s : list value) :
  exists out,
    Enum.dedup (of_list s) (pure_eq r) = Ok out
    /\ sublist out s
    /\ head out = head s
    /\ no_adjacent r out.
Proof.
  destruct s as [|x s].
  - exists []. repeat split. constructor.
  - exists (x :: dedup_from r x s). split; [apply dedup_of_list|]. split; [|split].
    + apply sublist_skip, sublist_dedup_from.
    + reflexivity.
    + apply no_adjacent_dedup_from.
Qed.

(** X16: [dedup] is idempotent: applied to its own result, with the same
    comparison, it returns that result, whatever the comparison (it need
    not be an equivalence). *)
Theorem dedup_idempotent (r : value -> value -> bool) (s out : list value) :
  Enum.dedup (of_list s) (pure_eq r) = Ok out ->
  Enum.dedup (of_list out) (pure_eq r) = Ok out.
Proof.
  destruct s as [|x s].
  - intros [= <-]. reflexivity.
  - rewrite dedup_of_list. intros [= <-].
    by rewrite dedup_of_list, dedup_from_idempotent.
Qed.

Lemma dedup_idempotent_witness :
  Enum.dedup (of_list (nums [1; 2; 1]%Z)) (pure_eq same_num)
  = Ok (nums [1; 2; 1]%Z).
Proof.
  apply (dedup_idempotent same_num (nums [1; 2; 2; 1]%Z) (nums [1; 2; 1]%Z)).
  reflexivity.
Defined.

(** The documented example: only neighbouring duplicates collapse. *)
Example dedup_example :
  Enum.dedup
    (of_list (nums [1; 2; 2; 3; 3; 3; 4; 4; 4; 4; 3; 3; 3; 2; 2; 1]%Z))
    (pure_eq same_num)
  = Ok (nums [1; 2; 3; 4; 3; 2; 1]%Z).
Proof. reflexivity. Qed.

(** ** chunk: what the groups are *)

Section Groups.

Variable n : Z.
Hypothesis n_pos : (0 < n)%Z.


Lemma chunk_loop_full (s : list value) :
  forall result current r c,
    Forall (full_group n) result ->
    Enum.chunk_loop n (of_list s) result current = Ok (r, c) ->
    Forall (full_group n) r.
Proof.
  induction s as [|x s IH]; intros result current r c Hfull.
  - cbn. by intros [= <- <-].
  - change (of_list (x :: s)) with (CYield x (of_list s)). cbn [Enum.chunk_loop].
    destruct (Z.eqb_spec (Z.of_nat (length (current ++ [x]))) n) as [Heq|Hne].
    + apply IH. apply Forall_app. split; [exact Hfull|]. by constructor.
    + by apply IH.
Qed.

Lemma length_concat_full (r : list (list value)) :
  Forall (full_group n) r -> length (concat r) = length r * Z.to_nat n.
Proof.
  induction 1 as [|g r Hg _ IH]; cbn; [reflexivity|].
  rewrite length_app, IH. unfold full_group in Hg. lia.
Qed.

(** The loop on an array: complete groups, then fewer than [n] elements
    left over; together they are the array. *)
Lemma chunk_loop_spec (s : list value) :
  exists r c,
    Enum.chunk_loop n (of_list s) [] [] = Ok (r, c)
    /\ concat r ++ c = s
    /\ Forall (full_group n) r
    /\ length r = length s / Z.to_nat n
    /\ length c = length s mod Z.to_nat n.
Proof.
  destruct (chunk_loop_flat n s [] []) as (r & c & Hloop & Hflat).
  cbn in Hflat. exists r, c.
  pose proof (chunk_loop_full s [] [] r c (Forall_nil_2 _) Hloop) as Hfull.
  pose proof (chunk_loop_short n s [] [] r c ltac:(cbn; lia) Hloop) as Hshort.
  assert (Hlen : length s = length r * Z.to_nat n + length c).
  { rewrite <- Hflat, length_app, length_concat_full by assumption. lia. }
  split; [exact Hloop|]. split; [exact Hflat|]. split; [exact Hfull|]. split.
  - rewrite Hlen. rewrite Nat.div_add_l by lia.
    rewrite Nat.div_small by lia. lia.
  - rewrite Hlen, Nat.add_comm, Nat.Div0.mod_add. symmetry. apply Nat.mod_small. lia.
Qed.


End Groups.

Lemma get_default_strategy (name : string) (fillValue : value) :
  get_default (with_fill name fillValue) "strategy" (VStr "dropEnd") = VStr name.
Proof. reflexivity. Qed.

(** X17: under [dropEnd] (the default, and any strategy that is not one of
    the other three) [chunk] on an array with a size [n > 0] returns
    [floor(len / n)] groups of exactly [n] elements each, which flattened
    are the first [n * floor(len / n)] elements of the array. *)
Theorem chunk_dropEnd_groups (s : list value) (n : Z) (options : obj) :
  (0 < n)%Z ->
  get options "strategy" <> VStr "keepEnd" ->
  get options "strategy" <> VStr "padEnd" ->
  get options "strategy" <> VStr "strict" ->
  exists groups,
    Enum.chunk (of_list s) n options = Ok groups
    /\ Forall (fun g => Z.of_nat (length g) = n) groups
    /\ length groups = length s / Z.to_nat n
    /\ concat groups = firstn (length groups * Z.to_nat n) s.
Proof.
  intros Hn Hk Hp Hs. rewrite chunk_other_strategy by assumption.
  destruct (chunk_loop_spec n Hn s) as (r & c & Hloop & Hflat & Hfull & Hcount & Hrest).
  exists r. unfold Enum.chunk. destruct (Z.leb_spec n 0) as [?|_]; [lia|].
  rewrite Hloop. split; [reflexivity|]. split; [exact Hfull|]. split; [exact Hcount|].
  rewrite <- Hflat. rewrite take_app_length'; [reflexivity|].
  by rewrite (length_concat_full n).
Qed.

Lemma chunk_dropEnd_groups_witness :
  exists groups,
    Enum.chunk (of_list (nums [1; 2; 3; 4; 5]%Z)) 2 [] = Ok groups
    /\ Forall (fun g => Z.of_nat (length g) = 2%Z) groups
    /\ length groups = length (nums [1; 2; 3; 4; 5]%Z) / Z.to_nat 2
    /\ concat groups = firstn (length groups * Z.to_nat 2) (nums [1; 2; 3; 4; 5]%Z).
Proof.
  apply (chunk_dropEnd_groups (nums [1; 2; 3; 4; 5]%Z) 2 []);
    [lia | discriminate | discriminate | discriminate].
Defined.

(** X18: [chunk] with [strict] and a size [n > 0] raises "Incomplete chunk"
    exactly when [n] does not divide the length of the array; when it does,
    all four strategies return the same groups, which flattened are the
    array. *)
Theorem chunk_strict_divides (s : list value) (n : Z) (fillValue : value) :
  (0 < n)%Z ->
  (length s mod Z.to_nat n <> 0 ->
     Enum.chunk (of_list s) n (strategy_only "strict")
     = Throw (Error "Incomplete chunk"))
  /\ (length s mod Z.to_nat n = 0 ->
        exists groups,
          Enum.chunk (of_list s) n (strategy_only "strict") = Ok groups
          /\ Enum.chunk (of_list s) n (strategy_only "dropEnd") = Ok groups
          /\ Enum.chunk (of_list s) n (strategy_only "keepEnd") = Ok groups
          /\ Enum.chunk (of_list s) n (with_fill "padEnd" fillValue) = Ok groups
          /\ concat groups = s).
Proof.
  intros Hn.
  destruct (chunk_loop_spec n Hn s) as (r & c & Hloop & Hflat & Hfull & Hcount & Hrest).
  unfold Enum.chunk. destruct (Z.leb_spec n 0) as [?|_]; [lia|].
  rewrite Hloop. rewrite get_default_strategy.
  change (get_default (strategy_only ?name) "strategy" (VStr "dropEnd"))
    with (VStr name).
  cbn [bind is_str String.eqb Ascii.eqb Bool.eqb andb]. split.
  - intros Hmod. destruct c as [|x c]; [cbn [length] in Hrest; lia | reflexivity].
  - intros Hmod. destruct c as [|x c]; [|cbn [length] in Hrest; lia].
    exists r. rewrite app_nil_r in Hflat. by repeat split.
Qed.

Lemma chunk_strict_divides_witness :
  Enum.chunk (of_list (nums [1; 2; 3; 4; 5]%Z)) 2 (strategy_only "strict")
  = Throw (Error "Incomplete chunk")
  /\ exists groups,
       Enum.chunk (of_list (nums [1; 2; 3; 4]%Z)) 2 (strategy_only "strict") = Ok groups
       /\ Enum.chunk (of_list (nums [1; 2; 3; 4]%Z)) 2 (strategy_only "dropEnd") = Ok groups
       /\ Enum.chunk (of_list (nums [1; 2; 3; 4]%Z)) 2 (strategy_only "keepEnd") = Ok groups
       /\ Enum.chunk (of_list (nums [1; 2; 3; 4]%Z)) 2 (with_fill "padEnd" VNull) = Ok groups
       /\ concat groups = nums [1; 2; 3; 4]%Z.
Proof.
  split.
  - apply (proj1 (chunk_strict_divides (nums [1; 2; 3; 4; 5]%Z) 2 VNull ltac:(lia))).
    vm_compute. lia.
  - apply (proj2 (chunk_strict_divides (nums [1; 2; 3; 4]%Z) 2 VNull ltac:(lia))).
    reflexivity.
Defined.



(** ** Sizes that are not positive *)

Lemma window_loop_appends (size : Z) (rest : list value) :
  forall arr front result,
    exists r,
      Enum.window_loop size (of_list rest) arr front result = Ok (result ++ r)
      /\ length r = length rest.
Proof.
  induction rest as [|e rest IH]; intros arr front result.
  - exists []. cbn. by rewrite app_nil_r.
  - change (of_list (e :: rest)) with (CYield e (of_list rest)).
    cbn [Enum.window_loop].
    edestruct IH as (r & -> & Hlen).
    eexists (_ :: r). split; [by rewrite <- app_assoc|]. cbn. by rewrite Hlen.
Qed.

(** X20: [chunk] rejects every size [<= 0], before it pulls from its input
    (whatever the input and the options); [window] rejects only [0]: with
    a negative size it raises nothing and returns, for an array, one window
    more than the array has elements, the first of them empty. *)
Theorem nonpositive_sizes (it : cursor) (options : obj) (s : list value)
    (size : Z) :
  ((size <= 0)%Z ->
     Enum.chunk it size options = Throw (Error "Cannot yield chunks of size <= 0"))
  /\ ((size < 0)%Z ->
        exists ws,
          Enum.window (of_list s) size = Ok ([] :: ws) /\ length ws = length s).
Proof.
  split; intros Hsize.
  - unfold Enum.chunk. by destruct (Z.leb_spec size 0) as [_|?]; [|lia].
  - unfold Enum.window. destruct (Z.eqb_spec size 0) as [?|_]; [lia|].
    replace (Z.to_nat size) with 0 by lia. cbn [Enum.window_fill bind length].
    destruct (Z.ltb_spec (Z.of_nat 0) size) as [?|_]; [lia|].
    destruct (window_loop_appends size s [] 0%Z [[]]) as (r & -> & Hlen).
    by exists r.
Qed.

Lemma nonpositive_sizes_witness :
  Enum.chunk (temperamentalIter []) (-1) []
  = Throw (Error "Cannot yield chunks of size <= 0")
  /\ exists ws,
       Enum.window (of_list (nums [1; 2]%Z)) (-1) = Ok ([] :: ws)
       /\ length ws = length (nums [1; 2]%Z).
Proof.
  split.
  - apply (proj1 (nonpositive_sizes (temperamentalIter []) [] [] (-1))). lia.
  - apply (proj2 (nonpositive_sizes CDone [] (nums [1; 2]%Z) (-1))). lia.
Defined.

(** ** Eagerness: an error of the input surfaces *)

Section Eager.

(** The input yields [xs] and then raises [e]. *)
Variable e : error.

Lemma chunk_loop_raising (size : Z) (xs : list value) :
  forall result current,
    Enum.chunk_loop size (yield_all xs (CRaise e)) result current = Throw e.
Proof.
  induction xs as [|x xs IH]; intros result current; cbn; [reflexivity|].
  destruct (_ =? _)%Z; apply IH.
Qed.

Lemma consume_raising (xs : list value) : Enum.consume (yield_all xs (CRaise e)) = Throw e.
Proof. induction xs as [|x xs IH]; cbn; [reflexivity | exact IH]. Qed.

Lemma dedup_loop_raising (r : value -> value -> bool) (xs : list value) :
  forall result, Enum.dedup_loop (yield_all xs (CRaise e)) (pure_eq r) result = Throw e.
Proof.
  induction xs as [|x xs IH]; intros result; cbn; [reflexivity|].
  destruct (r _ x); cbn; apply IH.
Qed.

Lemma drop_loop_raising (n : nat) :
  forall xs,
    Enum.drop_loop n (yield_all xs (CRaise e)) = Throw e
    \/ exists xs', Enum.drop_loop n (yield_all xs (CRaise e)) = Ok (yield_all xs' (CRaise e)).
Proof.
  induction n as [|n IH]; intros xs.
  - right. by exists xs.
  - destruct xs as [|x xs]; [by left|]. apply IH.
Qed.

Lemma dropWhile_loop_raising (q : value -> Z -> bool) (xs : list value) :
  forall c, Enum.dropWhile_loop (yield_all xs (CRaise e)) (pure_pred q) c = Throw e.
Proof.
  induction xs as [|x xs IH]; intros c; cbn; [reflexivity|].
  destruct (q x c); cbn; [apply IH|]. by rewrite spread_raises.
Qed.

Lemma filter_from_raising (q : value -> Z -> bool) (xs : list value) :
  forall c, Iterator.filter_from (yield_all xs (CRaise e)) (pure_pred q) c = Throw e.
Proof.
  induction xs as [|x xs IH]; intros c; cbn; [reflexivity|]. by rewrite IH.
Qed.

Lemma map_from_raising (g : value -> Z -> value) (xs : list value) :
  forall c, Iterator.map_from (yield_all xs (CRaise e)) (pure_map g) c = Throw e.
Proof.
  induction xs as [|x xs IH]; intros c; cbn; [reflexivity|]. by rewrite IH.
Qed.

Lemma window_fill_raising (n : nat) :
  forall xs arr,
    Enum.window_fill n (yield_all xs (CRaise e)) arr = Throw e
    \/ exists arr' xs',
         Enum.window_fill n (yield_all xs (CRaise e)) arr = Ok (arr', yield_all xs' (CRaise e))
         /\ length arr' = length arr + n.
Proof.
  induction n as [|n IH]; intros xs arr.
  - right. exists arr, xs. split; [reflexivity | lia].
  - destruct xs as [|x xs]; [by left|].
    cbn [yield_all Enum.window_fill next bind].
    destruct (IH xs (arr ++ [x])) as [->|(arr' & xs' & -> & Hlen)]; [by left|].
    right. exists arr', xs'. split; [reflexivity|].
    rewrite length_app in Hlen. cbn in Hlen. lia.
Qed.

Lemma window_loop_raising (size : Z) (xs : list value) :
  forall arr front result,
    Enum.window_loop size (yield_all xs (CRaise e)) arr front result = Throw e.
Proof.
  induction xs as [|x xs IH]; intros arr front result; cbn; [reflexivity|].
  apply IH.
Qed.

Lemma chain_loop_app (ls : list (list value)) (others : list cursor) :
  forall result,
    Enum.chain_loop (List.map of_list ls ++ others) result
    = Enum.chain_loop others (result ++ concat ls).
Proof.
  induction ls as [|l ls IH]; intros result; cbn.
  - by rewrite app_nil_r.
  - rewrite spread_of_list. cbn. rewrite IH. by rewrite <- app_assoc.
Qed.

End Eager.

(** X21: every function that reads its whole input raises the input's
    error when the input raises after its last element, and returns no
    partial result: [chain] (arrays before the raising input, anything
    after it), [chunk] and [window] (any positive size, any options),
    [consume], [length], [reverse], [drop] (any limit), and, with a
    callback that does not throw, [dedup], [dropWhile], [filter] and
    [map]. *)
Theorem eager_operations (e : error) (xs : list value) (size limit : Z)
    (options : obj) (ls : list (list value)) (others : list cursor)
    (r : value -> value -> bool) (q : value -> Z -> bool)
    (g : value -> Z -> value) :
  (0 < size)%Z ->
  Enum.chain (List.map of_list ls ++ yield_all xs (CRaise e) :: others) = Throw e
  /\ Enum.chunk (yield_all xs (CRaise e)) size options = Throw e
  /\ Enum.window (yield_all xs (CRaise e)) size = Throw e
  /\ Enum.consume (yield_all xs (CRaise e)) = Throw e
  /\ Enum.length (yield_all xs (CRaise e)) = Throw e
  /\ Enum.reverse (yield_all xs (CRaise e)) = Throw e
  /\ Enum.drop (yield_all xs (CRaise e)) limit = Throw e
  /\ Enum.dedup (yield_all xs (CRaise e)) (pure_eq r) = Throw e
  /\ Enum.dropWhile (yield_all xs (CRaise e)) (pure_pred q) = Throw e
  /\ Enum.filter (yield_all xs (CRaise e)) (pure_pred q) = Throw e
  /\ Enum.map (yield_all xs (CRaise e)) (pure_map g) = Throw e.
Proof.
  intros Hsize. repeat apply conj.
  - unfold Enum.chain. rewrite chain_loop_app. cbn. by rewrite spread_raises.
  - unfold Enum.chunk. destruct (Z.leb_spec size 0) as [?|_]; [lia|].
    by rewrite chunk_loop_raising.
  - unfold Enum.window. destruct (Z.eqb_spec size 0) as [?|_]; [lia|].
    destruct (window_fill_raising e (Z.to_nat size) xs [])
      as [->|(arr' & xs' & -> & Hlen)]; [reflexivity|].
    cbn [bind]. cbn [length] in Hlen.
    destruct (Z.ltb_spec (Z.of_nat (length arr')) size) as [?|_]; [lia|].
    apply window_loop_raising.
  - apply consume_raising.
  - unfold Enum.length. by rewrite length_loop_yield_all.
  - unfold Enum.reverse. by rewrite spread_raises.
  - unfold Enum.drop.
    destruct (drop_loop_raising e (Z.to_nat limit) xs) as [->|(xs' & ->)];
      [reflexivity|]. cbn. apply spread_raises.
  - unfold Enum.dedup. destruct xs as [|x xs]; [reflexivity|]. cbn.
    apply dedup_loop_raising.
  - apply dropWhile_loop_raising.
  - apply filter_from_raising.
  - apply map_from_raising.
Qed.

Lemma eager_operations_witness :
  Enum.chain (List.map of_list [nums [0; 1; 2]%Z]
              ++ temperamentalIter (nums [0; 1; 2]%Z) :: []) = Throw (Error "Bang!")
  /\ Enum.chunk (temperamentalIter (nums [0; 1; 2]%Z)) 2 [] = Throw (Error "Bang!")
  /\ Enum.window (temperamentalIter (nums [0; 1; 2]%Z)) 2 = Throw (Error "Bang!")
  /\ Enum.consume (temperamentalIter (nums [0; 1; 2]%Z)) = Throw (Error "Bang!")
  /\ Enum.length (temperamentalIter (nums [0; 1; 2]%Z)) = Throw (Error "Bang!")
  /\ Enum.reverse (temperamentalIter (nums [0; 1; 2]%Z)) = Throw (Error "Bang!")
  /\ Enum.drop (temperamentalIter (nums [0; 1; 2]%Z)) 2 = Throw (Error "Bang!")
  /\ Enum.dedup (temperamentalIter (nums [0; 1; 2]%Z)) (pure_eq same_num)
     = Throw (Error "Bang!")
  /\ Enum.dropWhile (temperamentalIter (nums [0; 1; 2]%Z)) (pure_pred (fun _ _ => true))
     = Throw (Error "Bang!")
  /\ Enum.filter (temperamentalIter (nums [0; 1; 2]%Z)) (pure_pred (fun _ _ => true))
     = Throw (Error "Bang!")
  /\ Enum.map (temperamentalIter (nums [0; 1; 2]%Z)) (pure_map succ_num)
     = Throw (Error "Bang!").
Proof.
  apply (eager_operations (Error "Bang!") (nums [0; 1; 2]%Z) 2 2 []
           [nums [0; 1; 2]%Z] [] same_num (fun _ _ => true) succ_num).
  lia.
Defined.

(** ** zip: what the tuples are *)

Lemma lookup_pairs (a b : list value) (k : nat) (x y : value) :
  a !! k = Some x -> b !! k = Some y -> pairs a b !! k = Some [x; y].
Proof.
  intros Ha Hb. unfold pairs. rewrite lookup_zip_with, Ha, Hb. reflexivity.
Qed.

(** X22: with no options [zip] of two arrays stops with the shorter one:
    given fuel for it, it returns [min(len(a), len(b))] tuples, the [k]-th
    being [[a[k], b[k]]]; what is left of the longer array is discarded. *)
Theorem zip_default_tuples (a b : list value) (fuel : nat) :
  Nat.min (length a) (length b) < fuel ->
  exists r,
    Enum.zip fuel [Enum.AVal (VArr a); Enum.AVal (VArr b)] = Some (Ok r)
    /\ length r = Nat.min (length a) (length b)
    /\ forall k x y, a !! k = Some x -> b !! k = Some y -> r !! k = Some [x; y].
Proof.
  intros Hfuel. exists (pairs a b). split; [|split].
  - cbn. unfold Enum.zipShortest. by rewrite zipShortest_two.
  - apply length_pairs.
  - apply lookup_pairs.
Qed.

Lemma zip_default_tuples_witness :
  exists r,
    Enum.zip 4 [Enum.AVal (VArr (nums [1; 2; 3; 4]%Z)); Enum.AVal (VArr (nums [7; 8; 9]%Z))]
    = Some (Ok r)
    /\ length r = Nat.min (length (nums [1; 2; 3; 4]%Z)) (length (nums [7; 8; 9]%Z))
    /\ forall k x y,
         nums [1; 2; 3; 4]%Z !! k = Some x -> nums [7; 8; 9]%Z !! k = Some y ->
         r !! k = Some [x; y].
Proof.
  apply (zip_default_tuples (nums [1; 2; 3; 4]%Z) (nums [7; 8; 9]%Z) 4). cbn. lia.
Defined.

Lemma zipLongest_padded (fillValue : value) (n : nat) :
  forall a b fuel result,
    Nat.max (length a) (length b) = n ->
    n < fuel ->
    Enum.zipLongest_loop fuel [of_list a; of_list b] fillValue result
    = Some (Ok (result ++ padded n fillValue a b)).
Proof.
  induction n as [|n IH]; intros a b fuel result Hmax Hfuel;
    (destruct fuel as [|fuel]; [lia|]).
  - destruct a, b; try (cbn in Hmax; lia). cbn. by rewrite app_nil_r.
  - destruct a as [|x a], b as [|y b]; try (cbn in Hmax; lia).
    + change (Enum.zipLongest_loop (S fuel) [of_list []; of_list (y :: b)] fillValue result)
        with (Enum.zipLongest_loop fuel [of_list []; of_list b] fillValue
                (result ++ [[fillValue; y]])).
      rewrite IH by (cbn in *; lia). cbn. by rewrite <- app_assoc.
    + change (Enum.zipLongest_loop (S fuel) [of_list (x :: a); of_list []] fillValue result)
        with (Enum.zipLongest_loop fuel [of_list a; of_list []] fillValue
                (result ++ [[x; fillValue]])).
      rewrite IH by (cbn in *; lia). cbn. by rewrite <- app_assoc.
    + change (Enum.zipLongest_loop (S fuel) [of_list (x :: a); of_list (y :: b)] fillValue result)
        with (Enum.zipLongest_loop fuel [of_list a; of_list b] fillValue
                (result ++ [[x; y]])).
      rewrite IH by (cbn in *; lia). cbn. by rewrite <- app_assoc.
Qed.

Lemma length_padded_pairs (fillValue : value) (n : nat) :
  forall a b, length (padded n fillValue a b) = n.
Proof. induction n as [|n IH]; intros a b; cbn; [reflexivity | by rewrite IH]. Qed.

Lemma lookup_padded (fillValue : value) (n : nat) :
  forall a b k,
    k < n ->
    padded n fillValue a b !! k
    = Some [default fillValue (a !! k); default fillValue (b !! k)].
Proof.
  induction n as [|n IH]; intros a b k Hk; [lia|].
  destruct k as [|k]; cbn.
  - by destruct a, b.
  - rewrite IH by lia. by destruct a, b.
Qed.

(** X23: under [longest] [zip] of two arrays goes on to the end of the
    longer one: given fuel for it, the [k]-th tuple is [[a[k], b[k]]] with
    the fill value of the options (read as [undefined] when they have none)
    in the place of an array that has run out. *)
Theorem zip_longest_tuples (a b : list value) (options : obj) (fuel : nat) :
  get options "strategy" = VStr "longest" ->
  Nat.max (length a) (length b) < fuel ->
  exists r,
    Enum.zip fuel [Enum.AVal (VArr a); Enum.AVal (VArr b); Enum.AVal (VObj options)]
    = Some (Ok r)
    /\ length r = Nat.max (length a) (length b)
    /\ forall k, k < Nat.max (length a) (length b) ->
         r !! k = Some [default (get options "fillValue") (a !! k);
                        default (get options "fillValue") (b !! k)].
Proof.
  intros Hstrategy Hfuel.
  assert (Hhas : has options "strategy" = true).
  { clear Hfuel. induction options as [|[key v] o IH]; [discriminate|].
    cbn in *. destruct (String.eqb key "strategy"); [reflexivity | by apply IH]. }
  rewrite zip_two_arrays by exact Hhas. rewrite Hstrategy.
  cbn [is_str String.eqb Ascii.eqb Bool.eqb]. unfold Enum.zipLongest.
  rewrite (zipLongest_padded _ _ a b fuel [] eq_refl Hfuel).
  eexists. split; [reflexivity|]. split.
  - apply length_padded_pairs.
  - intros k Hk. by apply lookup_padded.
Qed.

Lemma zip_longest_tuples_witness :
  exists r,
    Enum.zip 3 [Enum.AVal (VArr (nums [1; 2]%Z)); Enum.AVal (VArr (nums [7]%Z));
                Enum.AVal (VObj (strategy_only "longest"))]
    = Some (Ok r)
    /\ length r = Nat.max (length (nums [1; 2]%Z)) (length (nums [7]%Z))
    /\ forall k, k < Nat.max (length (nums [1; 2]%Z)) (length (nums [7]%Z)) ->
         r !! k = Some [default (get (strategy_only "longest") "fillValue")
                          (nums [1; 2]%Z !! k);
                        default (get (strategy_only "longest") "fillValue")
                          (nums [7]%Z !! k)].
Proof.
  apply (zip_longest_tuples (nums [1; 2]%Z) (nums [7]%Z) (strategy_only "longest") 3).
  - reflexivity.
  - cbn. lia.
Defined.

Lemma padded_same_length (fillValue : value) (a : list value) :
  forall b, length a = length b -> padded (length a) fillValue a b = pairs a b.
Proof.
  induction a as [|x a IH]; intros [|y b] Hlen; try discriminate; [reflexivity|].
  cbn. rewrite IH by (cbn in Hlen; lia). reflexivity.
Qed.

(** X24: for two arrays of equal length the three strategies converge:
    given fuel for them, [shortest], [strict] and [longest] (with any fill
    value) return the same tuples. *)
Theorem zip_strategies_converge (a b : list value) (fillValue : value)
    (fuel : nat) :
  length a = length b ->
  length a < fuel ->
  exists r,
    Enum.zip fuel [Enum.AVal (VArr a); Enum.AVal (VArr b);
                   Enum.AVal (VObj (strategy_only "shortest"))] = Some (Ok r)
    /\ Enum.zip fuel [Enum.AVal (VArr a); Enum.AVal (VArr b);
                      Enum.AVal (VObj (strategy_only "strict"))] = Some (Ok r)
    /\ Enum.zip fuel [Enum.AVal (VArr a); Enum.AVal (VArr b);
                      Enum.AVal (VObj (with_fill "longest" fillValue))] = Some (Ok r).
Proof.
  intros Hlen Hfuel. exists (pairs a b). rewrite !zip_two_arrays by reflexivity.
  cbn [strategy_only with_fill get is_str String.eqb Ascii.eqb Bool.eqb].
  unfold Enum.zipShortest, Enum.zipLongest, Enum.zipStrict.
  rewrite zipShortest_two, zipStrict_two by lia.
  rewrite (zipLongest_padded fillValue (length a) a b fuel []) by lia.
  rewrite padded_same_length by exact Hlen.
  by destruct (decide (length a = length b)).
Qed.

Lemma zip_strategies_converge_witness :
  exists r,
    Enum.zip 4 [Enum.AVal (VArr (nums [1; 2; 3]%Z)); Enum.AVal (VArr (nums [7; 8; 9]%Z));
                Enum.AVal (VObj (strategy_only "shortest"))] = Some (Ok r)
    /\ Enum.zip 4 [Enum.AVal (VArr (nums [1; 2; 3]%Z)); Enum.AVal (VArr (nums [7; 8; 9]%Z));
                   Enum.AVal (VObj (strategy_only "strict"))] = Some (Ok r)
    /\ Enum.zip 4 [Enum.AVal (VArr (nums [1; 2; 3]%Z)); Enum.AVal (VArr (nums [7; 8; 9]%Z));
                   Enum.AVal (VObj (with_fill "longest" VNull))] = Some (Ok r).
Proof.
  apply (zip_strategies_converge (nums [1; 2; 3]%Z) (nums [7; 8; 9]%Z) VNull 4).
  - reflexivity.
  - cbn. lia.
Defined.

(** *** Any number of arrays *)

Lemma zipShortest_batch_heads (ls : list (list value)) :
  Enum.zipShortest_batch (List.map of_list ls)
  = Ok (match heads ls with
        | None => None
        | Some (hs, ts) => Some (hs, List.map of_list ts)
        end).
Proof.
  induction ls as [|l ls IH]; [reflexivity|].
  destruct l as [|x t]; [reflexivity|].
  cbn [List.map heads]. change (of_list (x :: t)) with (CYield x (of_list t)).
  cbn [Enum.zipShortest_batch next bind]. rewrite IH. cbn [bind].
  by destruct (heads ls) as [[hs ts]|].
Qed.

Lemma heads_zero (ls : list (list value)) :
  Exists (fun l => length l = 0) ls -> heads ls = None.
Proof.
  induction 1 as [l ls Hl|l ls _ IH]; cbn.
  - by destruct l.
  - destruct l; [reflexivity|]. by rewrite IH.
Qed.

Lemma heads_succ (m : nat) (ls : list (list value)) :
  Forall (fun l => S m <= length l) ls ->
  exists hs ts,
    heads ls = Some (hs, ts)
    /\ length hs = length ls
    /\ length ts = length ls
    /\ Forall (fun l => m <= length l) ts
    /\ (Exists (fun l => length l = S m) ls -> Exists (fun l => length l = m) ts)
    /\ forall j l, ls !! j = Some l -> hs !! j = l !! 0 /\ ts !! j = Some (tl l).
Proof.
  induction 1 as [|l ls Hl _ IH].
  - exists [], []. repeat split; try done. by intros H; inversion H.
  - destruct IH as (hs & ts & Hheads & Hhs & Hts & Hall & Hex & Hlook).
    destruct l as [|x t]; [cbn in Hl; lia|].
    exists (x :: hs), (t :: ts). cbn [heads]. rewrite Hheads.
    split; [reflexivity|]. split; [cbn; lia|]. split; [cbn; lia|]. split.
    { constructor; [cbn in Hl; lia | exact Hall]. }
    split.
    { intros H. inversion H as [? ? Hx|? ? Hx]; subst.
      - apply Exists_cons_hd. cbn in Hx. lia.
      - apply Exists_cons_tl. by apply Hex. }
    intros [|j] l Hj.
    + injection Hj as <-. by split.
    + by apply Hlook.
Qed.

Lemma zipShortest_many (m : nat) :
  forall ls fuel result,
    Forall (fun l => m <= length l) ls ->
    Exists (fun l => length l = m) ls ->
    m < fuel ->
    exists r,
      Enum.zipShortest_loop fuel (List.map of_list ls) result = Some (Ok (result ++ r))
      /\ length r = m
      /\ forall k t, r !! k = Some t ->
           length t = length ls
           /\ forall j l, ls !! j = Some l -> t !! j = l !! k.
Proof.
  induction m as [|m IH]; intros ls fuel result Hall Hex Hfuel;
    (destruct fuel as [|fuel]; [lia|]); cbn [Enum.zipShortest_loop];
    rewrite zipShortest_batch_heads.
  - rewrite heads_zero by exact Hex. exists []. rewrite app_nil_r.
    split; [reflexivity|]. split; [reflexivity|]. intros k t Hk. discriminate Hk.
  - destruct (heads_succ m ls Hall) as (hs & ts & -> & Hhs & Hts & Hall' & Hex' & Hlook).
    destruct (IH ts fuel (result ++ [hs]) Hall' (Hex' Hex) ltac:(lia))
      as (r & -> & Hlen & Hrows).
    exists (hs :: r). split; [by rewrite <- app_assoc|]. split; [cbn; lia|].
    intros [|k] t Hk.
    + injection Hk as <-. split; [exact Hhs|].
      intros j l Hj. by apply Hlook.
    + destruct (Hrows k t Hk) as [Hwidth Hcol]. split; [lia|].
      intros j l Hj. destruct (Hlook j l Hj) as [_ Htl].
      rewrite (Hcol j (tl l) Htl). by destruct l.
Qed.

Lemma map_iter_arrays (ls : list (list value)) :
  Enum.map_iter (List.map (fun l => Enum.AVal (VArr l)) ls) = Ok (List.map of_list ls).
Proof. induction ls as [|l ls IH]; cbn; [reflexivity | by rewrite IH]. Qed.

Lemma options_of_last_arrays (ls : list (list value)) :
  Enum.options_of (last (List.map (fun l => Enum.AVal (VArr l)) ls)) = None.
Proof.
  induction ls as [|l ls IH]; [reflexivity|].
  destruct ls as [|l' ls]; [reflexivity | exact IH].
Qed.

(** X25: with no options [zip] of any number of arrays, at least one, stops
    with the shortest: given fuel for it, it returns as many tuples as the
    shortest array has elements, each tuple as wide as there are arrays,
    the [k]-th tuple holding at each place [j] the [k]-th element of the
    [j]-th array. *)
Theorem zip_shortest_many (m : nat) (ls : list (list value)) (fuel : nat) :
  Forall (fun l => m <= length l) ls ->
  Exists (fun l => length l = m) ls ->
  m < fuel ->
  exists r,
    Enum.zip fuel (List.map (fun l => Enum.AVal (VArr l)) ls) = Some (Ok r)
    /\ length r = m
    /\ forall k t, r !! k = Some t ->
         length t = length ls
         /\ forall j l, ls !! j = Some l -> t !! j = l !! k.
Proof.
  intros Hall Hex Hfuel. unfold Enum.zip.
  rewrite options_of_last_arrays, map_iter_arrays. cbn [fst snd get String.eqb].
  cbn [is_str String.eqb Ascii.eqb Bool.eqb]. unfold Enum.zipShortest.
  destruct (zipShortest_many m ls fuel [] Hall Hex Hfuel) as (r & -> & Hlen & Hrows).
  by exists r.
Qed.

Lemma zip_shortest_many_witness :
  exists r,
    Enum.zip 3 (List.map (fun l => Enum.AVal (VArr l))
                  [nums [0; 1; 2; 3; 4]%Z; nums [5; 6; 7]%Z; nums [8; 9]%Z])
    = Some (Ok r)
    /\ length r = 2
    /\ forall k t, r !! k = Some t ->
         length t = length [nums [0; 1; 2; 3; 4]%Z; nums [5; 6; 7]%Z; nums [8; 9]%Z]
         /\ forall j l,
              [nums [0; 1; 2; 3; 4]%Z; nums [5; 6; 7]%Z; nums [8; 9]%Z] !! j = Some l ->
              t !! j = l !! k.
Proof.
  apply (zip_shortest_many 2
           [nums [0; 1; 2; 3; 4]%Z; nums [5; 6; 7]%Z; nums [8; 9]%Z] 3).
  - repeat constructor; cbn; lia.
  - do 2 apply Exists_cons_tl. apply Exists_cons_hd. reflexivity.
  - lia.
Defined.

(** *** Telling the options from the data *)

Lemma map_iter_snoc (data : list Enum.arg) (a : Enum.arg) (its : list cursor) :
  Enum.map_iter data = Ok its ->
  Enum.map_iter (data ++ [a]) = (let* it := Enum.iter a in Ok (its ++ [it])).
Proof.
  revert its. induction data as [|d data IH]; intros its; cbn.
  - intros [= <-]. by destruct (Enum.iter a).
  - destruct (Enum.iter d) as [it|err]; cbn; [|discriminate].
    destruct (Enum.map_iter data) as [its'|err]; cbn; [|discriminate].
    intros [= <-]. rewrite (IH its' eq_refl). by destruct (Enum.iter a).
Qed.

(** X26: a trailing plain object counts as the options only if it has a
    [strategy] key: without one (say [{fillValue: 0}]) it is taken for one
    more data iterable, and since a plain object is not iterable [zip]
    raises a [TypeError], whatever the fuel and the other arguments (all
    of them iterable). *)
Theorem zip_options_without_strategy (fuel : nat) (data : list Enum.arg)
    (its : list cursor) (options : obj) :
  has options "strategy" = false ->
  Enum.map_iter data = Ok its ->
  exists msg,
    Enum.zip fuel (data ++ [Enum.AVal (VObj options)]) = Some (Throw (TypeError msg)).
Proof.
  intros Hhas Hdata. unfold Enum.zip. rewrite last_snoc. cbn [Enum.options_of].
  rewrite Hhas. cbn [fst snd]. rewrite (map_iter_snoc _ _ _ Hdata). cbn.
  eexists. reflexivity.
Qed.

Lemma zip_options_without_strategy_witness :
  exists msg,
    Enum.zip 5 ([Enum.AVal (VArr (nums [1; 2]%Z)); Enum.AVal (VStr "ab")]
                ++ [Enum.AVal (VObj [("fillValue", VNum 0)])])
    = Some (Throw (TypeError msg)).
Proof.
  apply (zip_options_without_strategy 5
           [Enum.AVal (VArr (nums [1; 2]%Z)); Enum.AVal (VStr "ab")]
           [of_list (nums [1; 2]%Z); of_list (Enum.chars "ab")]
           [("fillValue", VNum 0)]); reflexivity.
Defined.

(** ** scan and reduce together *)

Lemma default_last_cons (a x : value) (l : list value) :
  default a (last (x :: l)) = default x (last l).
Proof.
  revert a x. induction l as [|y l IH]; intros a x.
  - reflexivity.
  - rewrite last_cons_cons. rewrite (IH a y). symmetry. apply (IH x y).
Qed.

Lemma running_fold (f : reducer) (l : list value) :
  forall acc i outs,
    running f acc i l = Ok outs ->
    length outs = length l
    /\ fold_from f acc i l = Ok (default acc (last outs)).
Proof.
  induction l as [|x l IH]; intros acc i outs; cbn.
  - intros [= <-]. by split.
  - destruct (f acc x i) as [acc'|err]; cbn; [|discriminate].
    destruct (running f acc' (i + 1) l) as [rest|err] eqn:Hrest; cbn; [|discriminate].
    intros [= <-]. destruct (IH acc' (i + 1)%Z rest Hrest) as [Hlen Hfold].
    split; [cbn; lia|]. rewrite Hfold. f_equal.
    symmetry. apply default_last_cons.
Qed.

(** X27: when [scan] returns, it returns one output per element of the
    array and [reduce] with the same arguments returns the last of them
    (with a seed other than [undefined], the seed itself when the array is
    empty). *)
Theorem scan_ends_with_reduce (f : reducer) (x : value) (s outs : list value)
    (seed : value) :
  (seed <> VUndefined ->
   Enum.scan (of_list s) f seed = Ok outs ->
   length outs = length s
   /\ Enum.reduce (of_list s) f seed = Ok (default seed (last outs)))
  /\ (Enum.scan (of_list (x :: s)) f VUndefined = Ok outs ->
      length outs = length (x :: s)
      /\ Enum.reduce (of_list (x :: s)) f VUndefined = Ok (default x (last outs))).
Proof.
  split.
  - intros Hseed. rewrite scan_seeded by exact Hseed. intros Hrun.
    destruct (running_fold f s seed 0%Z outs Hrun) as [Hlen Hfold].
    split; [exact Hlen|].
    unfold Enum.reduce. rewrite (is_undefined_ne seed Hseed). cbn [Iterator.reduce].
    by rewrite reduce_from_of_list.
  - rewrite scan_unseeded.
    destruct (running f x 1 s) as [rest|err] eqn:Hrest; cbn; [|discriminate].
    intros [= <-]. destruct (running_fold f s x 1%Z rest Hrest) as [Hlen Hfold].
    split; [cbn; lia|].
    change (yield_all s CDone) with (of_list s).
    rewrite reduce_from_of_list, Hfold. f_equal.
    symmetry. apply default_last_cons.
Qed.

Lemma scan_ends_with_reduce_witness :
  (length (nums [10; 11; 13]%Z) = length (nums [0; 1; 2]%Z)
   /\ Enum.reduce (of_list (nums [0; 1; 2]%Z)) plus (VNum 10)
      = Ok (default (VNum 10) (last (nums [10; 11; 13]%Z))))
  /\ (length (nums [0; 1; 3]%Z) = length (VNum 0 :: nums [1; 2]%Z)
      /\ Enum.reduce (of_list (VNum 0 :: nums [1; 2]%Z)) plus VUndefined
         = Ok (default (VNum 0) (last (nums [0; 1; 3]%Z)))).
Proof.
  split.
  - apply (proj1 (scan_ends_with_reduce plus VNull (nums [0; 1; 2]%Z)
                    (nums [10; 11; 13]%Z) (VNum 10))).
    + discriminate.
    + reflexivity.
  - apply (proj2 (scan_ends_with_reduce plus (VNum 0) (nums [1; 2]%Z)
                    (nums [0; 1; 3]%Z) VNull)).
    reflexivity.
Defined.
